(** * Word Wizard: the wordlist engine and its export encoders

    A shallow embedding of [word_wizard.py] (the [Options] dataclass, the
    [WordlistEngine] class and the static export helpers of [Wizard]) and the
    properties of it that the specification states.

    Python strings are sequences of Unicode code points, so a string is a
    [list N] and [len] is [length].  Python sets are [gset]s: [list(a_set)]
    is [elements], whose order is fixed but unspecified, exactly like the
    iteration order of a CPython set; no theorem below depends on it. *)

From Stdlib Require Import String Ascii NArith ZArith Lia.
From stdpp Require Import base numbers list gmap sorting.

Local Open Scope N_scope.

(** ** Python strings *)

Abbreviation pystr := (list N).

(** An ASCII literal as a Python string. *)
Definition py (s : string) : pystr :=
  map (fun a => N_of_ascii a) (list_ascii_of_string s).
Arguments py s%_string.

(** [sep.join(parts)] *)
Fixpoint join (sep : pystr) (parts : list pystr) : pystr :=
  match parts with
  | [] => []
  | [p] => p
  | p :: rest => p ++ sep ++ join sep rest
  end.

Definition in_range (lo hi c : N) : bool := (lo <=? c) && (c <=? hi).

(** [str.isascii()] *)
Definition is_ascii (c : N) : bool := c <? 128.
Definition str_isascii (s : pystr) : bool := forallb is_ascii s.

(** [str.replace(a, b)] for single characters [a] and [b]. *)
Definition replace_char (a b : N) (s : pystr) : pystr :=
  map (fun c => if c =? a then b else c) s.

(** The built-in string methods and [re] character classes whose result
    depends on the Unicode character database of the interpreter.  The
    engine is stated over any such database; [latin1_unicode] at the end of
    the definitions is the instance used to run it. *)
Class PyUnicode := {
  str_upper      : pystr -> pystr;    (* s.upper() *)
  str_lower      : pystr -> pystr;    (* s.lower() *)
  str_capitalize : pystr -> pystr;    (* s.capitalize() *)
  str_isupper    : pystr -> bool;     (* s.isupper() *)
  str_islower    : pystr -> bool;     (* s.islower() *)
  uni_isalpha    : N -> bool;         (* c.isalpha() *)
  uni_isalnum    : N -> bool;         (* c.isalnum() *)
  uni_isdecimal  : N -> bool;         (* c.isdecimal(): what \d matches *)
  uni_isspace    : N -> bool          (* c.isspace(): what \s matches *)
}.

(** The optional collaborators of the enricher: [unidecode] and the
    WordNet corpus reader of NLTK.  A lookup that raises is [None]. *)
Class Lexicon := {
  unidecode    : pystr -> pystr;
  wn_available : bool;                              (* _WN_OK and wn is not None *)
  wn_morphy    : pystr -> option (option pystr);    (* wn.morphy(w) *)
  wn_synsets   : pystr -> option (list (list pystr))
                              (* [syn.lemma_names() for syn in wn.synsets(w)] *)
}.

(** ** Errors *)

Inductive exn : Type :=
| ValueError (msg : string).

Inductive result (A : Type) : Type :=
| Ok (a : A)
| Raise (e : exn).
Arguments Ok {A} a.
Arguments Raise {A} e.

(** ** The model: [Options] *)

Definition SEP_SET : list pystr :=
  [py " "; py "_"; py "-"; py "."; py "/"; py "!"; py "@"; py "#"; py "$";
   py "%"; py "?"; py ","].
Definition VOWELS : pystr := py "aeiouyAEIOUY".

Record Options : Type := {
  min_len           : Z;
  max_len           : Z;
  separators        : list pystr;
  add_leet          : bool;
  add_casing        : bool;
  add_separators    : bool;
  cap_first         : bool;
  cap_last          : bool;
  add_prefix_suffix : pystr;
  duplicate_vowels  : bool;
  reverse_words     : bool;
  numeric_only      : bool;
  exact_digits      : Z;
  add_variants      : bool
}.

Definition default_options : Options := {|
  min_len := 6; max_len := 20; separators := SEP_SET;
  add_leet := true; add_casing := true; add_separators := true;
  cap_first := false; cap_last := false;
  add_prefix_suffix := py "!@#$%?";
  duplicate_vowels := false; reverse_words := false;
  numeric_only := false; exact_digits := 0; add_variants := false |}.

Definition validate (o : Options) : result unit :=
  if (min_len o >? max_len o)%Z then Raise (ValueError "min_len>max_len")
  else if negb ((1 <=? min_len o)%Z && (min_len o <=? 128)%Z
                && (1 <=? max_len o)%Z && (max_len o <=? 128)%Z)
  then Raise (ValueError "length out of range")
  else if numeric_only o && (exact_digits o <? 1)%Z
  then Raise (ValueError "Exact digits must be >=1 in banking mode")
  else Ok tt.

(** ** Dates *)

(** A [datetime.date]; [strftime] is modelled for the years 1000 to 9999,
    where every platform prints four digits for [%Y]. *)
Record date : Type := { year : N; month : N; day : N }.

Definition digit_char (n : N) : N := 48 + n mod 10.
Definition two_digits (n : N) : pystr := [digit_char (n / 10); digit_char n].
Definition four_digits (n : N) : pystr :=
  [digit_char (n / 1000); digit_char (n / 100); digit_char (n / 10);
   digit_char n].

Inductive date_format : Type := fmt_d | fmt_m | fmt_y | fmt_Y.

Definition strftime (d : date) (f : date_format) : pystr :=
  match f with
  | fmt_d => two_digits (day d)
  | fmt_m => two_digits (month d)
  | fmt_y => two_digits (year d mod 100)
  | fmt_Y => four_digits (year d)
  end.

(** ** The engine *)

Record Engine : Type := {
  words            : list pystr;
  dates            : list date;
  o                : Options;
  variants_map     : gmap pystr (list pystr);
  variant_siblings : gmap pystr (gset pystr)
}.

(** Methods run against the engine object: a state-and-error monad.  The
    state that comes back is the object after the call, also when the call
    raises. *)
Definition M (A : Type) : Type := Engine -> result A * Engine.

Definition ret {A} (a : A) : M A := fun e => (Ok a, e).
Definition raise {A} (x : exn) : M A := fun e => (Raise x, e).
Definition read {A} (f : Engine -> A) : M A := fun e => (Ok (f e), e).
Definition bind {A B} (m : M A) (k : A -> M B) : M B :=
  fun e => match m e with
           | (Ok a, e') => k a e'
           | (Raise x, e') => (Raise x, e')
           end.

#[global] Instance M_ret : MRet M := @ret.
#[global] Instance M_bind : MBind M := fun A B k m => bind m k.

(** [_dates] *)
Definition format_dates (ds : list date) : list pystr :=
  flat_map (fun d =>
    let dd := strftime d fmt_d in
    let mm := strftime d fmt_m in
    let yy := strftime d fmt_y in
    let yyyy := strftime d fmt_Y in
    [dd; mm; yy; yyyy; dd ++ mm; mm ++ dd; dd ++ mm ++ yy; dd ++ mm ++ yyyy;
     yyyy ++ mm ++ dd]) ds.

(** [_filter] *)
Definition filter_len (opt : Options) (lst : list pystr) : list pystr :=
  List.filter (fun w => (min_len opt <=? Z.of_nat (length w))%Z
                        && (Z.of_nat (length w) <=? max_len opt)%Z) lst.

(** [_uniq]: the loop over [lst] with its two accumulators. *)
Fixpoint uniq_loop (seen : gset pystr) (out lst : list pystr) : list pystr :=
  match lst with
  | [] => out
  | w :: rest =>
      if decide (w ∈ seen) then uniq_loop seen out rest
      else uniq_loop ({[w]} ∪ seen) (out ++ [w]) rest
  end.
Definition uniq (lst : list pystr) : list pystr := uniq_loop ∅ [] lst.

(** [itertools.product(alphabet, repeat=n)]: the leftmost position varies
    slowest. *)
Fixpoint product (alphabet : pystr) (n : nat) : list pystr :=
  match n with
  | O => [[]]
  | S n' => flat_map (fun c => map (cons c) (product alphabet n')) alphabet
  end.

(** ** Regular expressions of the engine *)

(** [re.split] on a pattern [(C+)], for a character class [C]: the pieces
    between the maximal runs of [C], with the runs themselves kept at the
    odd positions.  The first and the last piece are the only ones that can
    be empty. *)
Fixpoint split_runs (is_sep : N -> bool) (s : pystr) : list pystr :=
  match s with
  | [] => [[]]
  | c :: s' =>
      match split_runs is_sep s' with
      | [] => [[]]
      | p0 :: rest =>
          if is_sep c then
            match p0, rest with
            | [], d :: rest' => [] :: (c :: d) :: rest'
            | _, _ => [] :: [c] :: p0 :: rest
            end
          else (c :: p0) :: rest
      end
  end.

(** The pieces at the even positions: what [re.split] returns when the
    class is not captured. *)
Fixpoint every_other (parts : list pystr) : list pystr :=
  match parts with
  | [] => []
  | [p] => [p]
  | p :: _ :: rest => p :: every_other rest
  end.

Definition nonempty (s : pystr) : bool :=
  match s with [] => false | _ => true end.

(** The replacement template of [re.sub], as the [re] module reads it: a
    backslash followed by a digit from 1 to 9 is a reference to that group,
    two backslashes are one literal backslash, and a character that no
    backslash precedes stands for itself.  (A backslash before anything
    else is kept with what follows it, which is what [re] does before
    punctuation; the template of the engine has no such escape.) *)
Inductive template_item : Type :=
| Literal (c : N)
| GroupRef (n : nat).

Fixpoint parse_template (t : pystr) : list template_item :=
  match t with
  | [] => []
  | c :: t' =>
      if c =? 92 then
        match t' with
        | d :: t'' =>
            if (49 <=? d) && (d <=? 57)
            then GroupRef (N.to_nat (d - 48)) :: parse_template t''
            else if d =? 92 then Literal 92 :: parse_template t''
            else Literal 92 :: Literal d :: parse_template t''
        | [] => [Literal 92]
        end
      else Literal c :: parse_template t'
  end.

Definition expand_template (items : list template_item)
    (groups : list pystr) : pystr :=
  flat_map (fun it => match it with
                      | Literal c => [c]
                      | GroupRef n => nth n groups []
                      end) items.

(** [re.sub("([" + cls + "])", template, w)]: every character of the class
    is one match, whose group 0 and group 1 are that character. *)
Definition re_sub_class (cls template w : pystr) : pystr :=
  flat_map (fun c =>
    if bool_decide (c ∈ cls)
    then expand_template (parse_template template) [[c]; [c]]
    else [c]) w.

(** [str.maketrans(x, y)] and [str.translate(table)] *)
Definition maketrans (x y : pystr) : gmap N N :=
  foldl (fun m '(a, b) => <[a:=b]> m) ∅ (zip x y).
Definition translate (table : gmap N N) (w : pystr) : pystr :=
  map (fun c => default c (table !! c)) w.

(** [WordlistEngine.LEET]; the third and the seventh target are the euro
    sign U+20AC and the inverted exclamation mark U+00A1. *)
Definition LEET : gmap N N :=
  maketrans (py "aAeEiIoOsS") [64; 52; 8364; 51; 33; 49; 161; 48; 36; 53].

(** The replacement that [_mutate] passes to [re.sub]: the raw string
    literal of the source, six characters long. *)
Definition vowel_template : pystr := py "\\1\\1".

(** [str.strip()] *)
Fixpoint lstrip (sp : N -> bool) (s : pystr) : pystr :=
  match s with
  | c :: s' => if sp c then lstrip sp s' else s
  | [] => []
  end.
Definition strip (sp : N -> bool) (s : pystr) : pystr :=
  rev (lstrip sp (rev (lstrip sp s))).

(** ** [itertools.permutations] *)

Fixpoint selections {A} (l : list A) : list (A * list A) :=
  match l with
  | [] => []
  | x :: l' => (x, l') :: map (fun '(y, r) => (y, x :: r)) (selections l')
  end.

Fixpoint permutations {A} (r : nat) (items : list A) : list (list A) :=
  match r with
  | O => [[]]
  | S r' => flat_map (fun '(x, rest) => map (cons x) (permutations r' rest))
                     (selections items)
  end.

(** The domain error of banking mode. *)
Definition no_digits_error : exn :=
  ValueError "Aucun chiffre dans les informations fournies (mots/dates)".

Section Engine.
Context {U : PyUnicode} {L : Lexicon}.

(** [\W] and the token separators [[\s_\-]] of the enricher. *)
Definition re_nonword (c : N) : bool := negb (uni_isalnum c || (c =? 95)).
Definition re_token_sep (c : N) : bool :=
  uni_isspace c || (c =? 95) || (c =? 45).

(** [p[0].upper() + p[1:].lower()] for a piece that starts with a letter. *)
Definition capitalize_piece (p : pystr) : option pystr :=
  match p with
  | c :: p' => if uni_isalpha c then Some (str_upper [c] ++ str_lower p')
               else None
  | [] => None
  end.

(** The loop of [_reapply_case]: the first piece that starts with a letter
    is capitalized, and the loop stops there. *)
Fixpoint capitalize_first (parts : list pystr) : list pystr :=
  match parts with
  | [] => []
  | p :: rest =>
      match capitalize_piece p with
      | Some p' => p' :: rest
      | None => p :: capitalize_first rest
      end
  end.

Definition _reapply_case (src ref : pystr) : pystr :=
  if str_isupper ref then str_upper src
  else if str_islower ref then str_lower src
  else concat (capitalize_first (split_runs re_nonword src)).

(** [_cap_first_tokens]: the same loop without the [break]. *)
Definition _cap_first_tokens (s : pystr) : pystr :=
  concat (map (fun p => default p (capitalize_piece p))
              (split_runs re_nonword s)).

(** The sibling table that [__init__] derives from the variants map. *)
Definition add_group (sib : gmap pystr (gset pystr))
    (entry : pystr * list pystr) : gmap pystr (gset pystr) :=
  let allv : gset pystr :=
    {[str_lower entry.1]} ∪ list_to_set (map str_lower entry.2) in
  foldl (fun sib v => <[v := default ∅ (sib !! v) ∪ (allv ∖ {[v]})]> sib)
        sib (elements allv).

Definition build_siblings (vm : gmap pystr (list pystr))
    : gmap pystr (gset pystr) :=
  foldl add_group ∅ (map_to_list vm).

(** [WordlistEngine.__init__] *)
Definition WordlistEngine (ws : list pystr) (ds : list date) (opt : Options)
    (vm : gmap pystr (list pystr)) : result Engine :=
  match validate opt with
  | Raise x => Raise x
  | Ok _ => Ok {| words := List.filter nonempty ws; dates := ds; o := opt;
                  variants_map := vm;
                  variant_siblings := build_siblings vm |}
  end.

(** *** The enricher *)

Definition MAX_SYNONYMS_PER_WORD : nat := 8.

Fixpoint lemma_loop (syns : gset pystr) (lemmas : list pystr) : gset pystr :=
  match lemmas with
  | [] => syns
  | l :: rest =>
      let cand := replace_char 95 32 l in
      let syns' := if nonempty cand && str_isascii cand
                   then {[cand]} ∪ syns else syns in
      if (MAX_SYNONYMS_PER_WORD <=? size syns')%nat then syns'
      else lemma_loop syns' rest
  end.

Fixpoint synset_loop (syns : gset pystr) (synsets : list (list pystr))
    : gset pystr :=
  match synsets with
  | [] => syns
  | lemmas :: rest =>
      let syns' := lemma_loop syns lemmas in
      if (MAX_SYNONYMS_PER_WORD <=? size syns')%nat then syns'
      else synset_loop syns' rest
  end.

(** The [try] block of [_enrich_words]: what it has added to the pool when
    it ends, normally or through the [except] clause. *)
Definition wordnet_variants (w : pystr) : gset pystr :=
  if wn_available then
    match wn_morphy (str_lower w) with
    | None => ∅
    | Some m =>
        let lemma : gset pystr :=
          match m with
          | Some m' => if nonempty m' then {[_reapply_case m' w]} else ∅
          | None => ∅
          end in
        match wn_synsets (str_lower w) with
        | None => lemma
        | Some synsets =>
            lemma ∪ list_to_set (map (fun s => _reapply_case s w)
                                     (elements (synset_loop ∅ synsets)))
        end
    end
  else ∅.

Definition enrich_word (sib : gmap pystr (gset pystr)) (pool : gset pystr)
    (w : pystr) : gset pystr :=
  if nonempty w then
    let pool := {[w]} ∪ pool in
    let w_unacc := unidecode w in
    let pool := if nonempty w_unacc && negb (bool_decide (w_unacc = w))
                then {[w_unacc]} ∪ pool else pool in
    let tokens :=
      List.filter nonempty (every_other (split_runs re_token_sep w)) in
    let pool :=
      foldl (fun pool t =>
               foldl (fun pool s => {[_reapply_case s t]} ∪ pool) pool
                     (elements (default ∅ (sib !! str_lower t))))
            pool tokens in
    wordnet_variants w ∪ pool
  else pool.

Definition _enrich_words (e : Engine) (ws : list pystr) : list pystr :=
  let pool := foldl (enrich_word (variant_siblings e)) ∅ ws in
  let cleaned : gset pystr :=
    list_to_set (map (strip uni_isspace)
      (List.filter (fun x => nonempty x && nonempty (strip uni_isspace x))
                   (elements pool))) in
  elements cleaned.

(** *** The word path *)

Definition _dates (e : Engine) : list pystr := format_dates (dates e).

Definition _combine (e : Engine) (items : list pystr) : list pystr :=
  flat_map (fun r =>
    flat_map (fun prod =>
      if add_separators (o e)
      then map (fun s => join s prod) (separators (o e))
      else [concat prod])
      (permutations r items))
    (seq 1 (Nat.min 4 (length items))).

(** One round of the loop of [_mutate]: what the candidate [w] adds. *)
Definition mutate_step (opt : Options) (acc : gset pystr) (w : pystr)
    : gset pystr :=
  let acc := if add_casing opt
             then {[str_upper w; str_lower w; str_capitalize w]} ∪ acc
             else acc in
  let acc := if add_leet opt then {[translate LEET w]} ∪ acc else acc in
  let acc := if duplicate_vowels opt
             then {[re_sub_class VOWELS vowel_template w]} ∪ acc else acc in
  let acc := if reverse_words opt then {[rev w]} ∪ acc else acc in
  let acc := if cap_first opt && nonempty w
             then {[_cap_first_tokens w]} ∪ acc else acc in
  let acc := if cap_last opt && (0 <? length w)%nat
             then {[str_lower (List.removelast w)
                    ++ str_upper [List.last w 0]]} ∪ acc
             else acc in
  acc.

Definition _mutate (e : Engine) (lst : list pystr) : list pystr :=
  let acc : gset pystr := list_to_set lst in
  elements (foldl (mutate_step (o e)) acc (elements acc)).

Definition _prefix_suffix (e : Engine) (lst : list pystr) : list pystr :=
  if nonempty (add_prefix_suffix (o e)) then
    lst ++ flat_map (fun w =>
             flat_map (fun ch => [ch :: w; w ++ [ch]])
                      (add_prefix_suffix (o e))) lst
  else lst.

Definition _filter (e : Engine) (lst : list pystr) : list pystr :=
  filter_len (o e) lst.

Definition _uniq (lst : list pystr) : list pystr := uniq lst.

(** *** Banking mode *)

(** The text the digits are taken from, and the digit alphabet. *)
Definition numeric_source (e : Engine) : pystr :=
  concat (words e) ++ concat (_dates e).

(** [set(re.findall(r"\d", src))] and the sorted string made of it. *)
Definition digit_set (src : pystr) : gset N :=
  list_to_set (List.filter uni_isdecimal src).

Definition digit_alphabet (src : pystr) : pystr :=
  merge_sort N.le (elements (digit_set src)).

Definition _generate_numeric : M (list pystr) :=
  len ← read (fun e => exact_digits (o e));
  src ← read numeric_source;
  let digits := digit_alphabet src in
  if nonempty digits then
    if (len <? 0)%Z
    then raise (ValueError "repeat argument cannot be negative")
    else mret (_uniq (product digits (Z.to_nat len)))
  else raise no_digits_error.

Definition generate : M (list pystr) :=
  numeric ← read (fun e => numeric_only (o e));
  if (numeric : bool) then _generate_numeric
  else
    base_words ← read (fun e => if add_variants (o e)
                                then _enrich_words e (words e)
                                else words e);
    parts ← read (fun e => _dates e ++ base_words);
    combos ← read (fun e => _combine e parts);
    combos ← read (fun e => _mutate e combos);
    combos ← read (fun e => _prefix_suffix e combos);
    combos ← read (fun e => _filter e combos);
    mret (_uniq combos).

(** [basewords] *)
Definition basewords (e : Engine) : list pystr :=
  let ws := if add_variants (o e) then _enrich_words e (words e)
            else words e in
  _uniq (_dates e ++ ws).

End Engine.

(** ** Export helpers of [Wizard] *)

(** The raw string literal [specials] of [_char_to_mask]: the space and the
    32 ASCII punctuation characters (the backslash occurs twice). *)
Definition specials : pystr :=
  py " !\" ++ [34] ++ py "#$%&'()*+,-./:;<=>?@[\]^_`{|}~".

Definition _char_to_mask (ch : N) : pystr :=
  if (97 <=? ch) && (ch <=? 122) then py "?l"
  else if (65 <=? ch) && (ch <=? 90) then py "?u"
  else if (48 <=? ch) && (ch <=? 57) then py "?d"
  else if bool_decide (ch ∈ specials) then py "?s"
  else py "?a".

(** The mask that [_export_masks] computes for one word. *)
Definition word_mask (w : pystr) : pystr := concat (map _char_to_mask w).

(** The [masks] dictionary of [_export_masks]: how often each mask occurs. *)
Definition count_masks (ws : list pystr) : gmap pystr nat :=
  foldl (fun masks w =>
           let m := word_mask w in
           <[m := (default 0 (masks !! m) + 1)%nat]> masks)
        ∅ ws.

(** ["%d" % n] for a natural number. *)
Fixpoint decimal_fuel (fuel : nat) (n : N) : pystr :=
  match fuel with
  | O => []
  | S fuel' => if n <? 10 then [digit_char n]
               else decimal_fuel fuel' (n / 10) ++ [digit_char n]
  end.
Definition decimal (n : N) : pystr := decimal_fuel (S (N.size_nat n)) n.

(** The order of [sorted] on strings: lexicographic on code points. *)
Fixpoint str_leb (a b : pystr) : bool :=
  match a, b with
  | [], _ => true
  | _ :: _, [] => false
  | x :: a', y :: b' =>
      if x <? y then true else if y <? x then false else str_leb a' b'
  end.
Definition str_le (a b : pystr) : Prop := Is_true (str_leb a b).

Definition sorted_strings (s : gset pystr) : list pystr :=
  merge_sort str_le (elements s).

Definition leet_pairs : list (pystr * pystr) :=
  [(py "a", py "@"); (py "a", py "4"); (py "e", py "3"); (py "i", py "1");
   (py "o", py "0"); (py "s", py "5")].

Section Rules.
Context {U : PyUnicode}.

(** The loop over the leet pairs, the same in both rule builders. *)
Definition add_leet_rules (rules : gset pystr) : gset pystr :=
  foldl (fun rules '(a, b) =>
           {[py "s" ++ str_upper a ++ b]} ∪ ({[py "s" ++ a ++ b]} ∪ rules))
        rules leet_pairs.

Definition current_options (engine : option Engine) : Options :=
  match engine with
  | Some e => o e
  | None => default_options
  end.

Definition _build_hashcat_rules (engine : option Engine) : list pystr :=
  let opt := current_options engine in
  let rules : gset pystr := {[py ":"]} in
  let rules := if cap_first opt then {[py "c"]} ∪ rules else rules in
  let rules :=
    if cap_last opt
    then foldl (fun rules n => {[py "lT" ++ decimal (Z.to_N n)]} ∪ rules)
               rules (seqZ 0 (Z.max 1 (max_len opt)))
    else rules in
  let rules := if add_leet opt then add_leet_rules rules else rules in
  let rules := foldl (fun rules ch => {[py "$" ++ [ch]]} ∪ rules) rules
                     (add_prefix_suffix opt) in
  sorted_strings rules.

Definition _build_john_rules (engine : option Engine) : list pystr :=
  let opt := current_options engine in
  let rules : gset pystr := {[py ""]} in
  let rules := if cap_first opt then {[py "c"]} ∪ rules else rules in
  let rules := if add_leet opt then add_leet_rules rules else rules in
  let rules := foldl (fun rules ch => {[py "A" ++ [ch]]} ∪ rules) rules
                     (add_prefix_suffix opt) in
  sorted_strings rules.

End Rules.

(** ** An interpreter to run the model on

    The character database restricted to Latin-1 (code points below 256),
    where it is small enough to write down; code points above are left
    alone by the case maps and belong to no class.  On Latin-1 text it is
    the database of CPython 3.8 and later. *)

Definition ascii_upper (c : N) : N := if in_range 97 122 c then c - 32 else c.
Definition ascii_lower (c : N) : N := if in_range 65 90 c then c + 32 else c.
Definition ascii_isalpha (c : N) : bool := in_range 65 90 c || in_range 97 122 c.
Definition ascii_isalnum (c : N) : bool := ascii_isalpha c || in_range 48 57 c.

Definition latin1_upper (c : N) : pystr :=
  if is_ascii c then [ascii_upper c]
  else if c =? 181 then [924]
  else if c =? 223 then [83; 83]
  else if c =? 255 then [376]
  else if in_range 224 254 c && negb (c =? 247) then [c - 32]
  else [c].

Definition latin1_lower (c : N) : pystr :=
  if is_ascii c then [ascii_lower c]
  else if in_range 192 222 c && negb (c =? 215) then [c + 32]
  else [c].

Definition latin1_title (c : N) : pystr :=
  if c =? 223 then [83; 115] else latin1_upper c.

Definition latin1_isupper (c : N) : bool :=
  in_range 65 90 c || (in_range 192 222 c && negb (c =? 215)).
Definition latin1_islower (c : N) : bool :=
  in_range 97 122 c || (c =? 170) || (c =? 181) || (c =? 186)
  || (in_range 223 255 c && negb (c =? 247)).
Definition latin1_isalpha (c : N) : bool :=
  if is_ascii c then ascii_isalpha c
  else latin1_isupper c || latin1_islower c.
Definition latin1_isalnum (c : N) : bool :=
  if is_ascii c then ascii_isalnum c
  else latin1_isalpha c || (c =? 178) || (c =? 179) || (c =? 185)
       || in_range 188 190 c.
Definition latin1_isspace (c : N) : bool :=
  in_range 9 13 c || in_range 28 32 c || (c =? 133) || (c =? 160).

(** [str.isupper] and [str.islower]: no character of the other case, and
    at least one of this one. *)
Definition all_cased (this other : N -> bool) (s : pystr) : bool :=
  forallb (fun c => negb (other c)) s && existsb this s.

#[global] Instance latin1_unicode : PyUnicode := {|
  str_upper s := flat_map latin1_upper s;
  str_lower s := flat_map latin1_lower s;
  str_capitalize s :=
    match s with
    | [] => []
    | c :: s' => latin1_title c ++ flat_map latin1_lower s'
    end;
  str_isupper := all_cased latin1_isupper latin1_islower;
  str_islower := all_cased latin1_islower latin1_isupper;
  uni_isalpha := latin1_isalpha;
  uni_isalnum := latin1_isalnum;
  uni_isdecimal := in_range 48 57;
  uni_isspace := latin1_isspace
|}.

(** The enricher without its optional packages: the fallback [unidecode]
    of the source, and no WordNet. *)
#[global] Instance no_lexicon : Lexicon := {|
  unidecode s := s;
  wn_available := false;
  wn_morphy _ := None;
  wn_synsets _ := None
|}.

(** What every character database says about ASCII text. *)
Class AsciiFaithful (U : PyUnicode) : Prop := {
  upper_ascii s : forallb is_ascii s = true -> str_upper s = map ascii_upper s;
  lower_ascii s : forallb is_ascii s = true -> str_lower s = map ascii_lower s;
  isalpha_ascii c : is_ascii c = true -> uni_isalpha c = ascii_isalpha c;
  isalnum_ascii c : is_ascii c = true -> uni_isalnum c = ascii_isalnum c
}.

(** The result of a method call on the engine [e]. *)
Definition run {A} (m : M A) (e : Engine) : result A := (m e).1.

(** Options with the given mutation flags and nothing else: no separators,
    no prefixes or suffixes, lengths from 1 to 20. *)
Definition only_flags (leet casing dup rev cfirst clast : bool) : Options := {|
  min_len := 1; max_len := 20; separators := SEP_SET;
  add_leet := leet; add_casing := casing; add_separators := false;
  cap_first := cfirst; cap_last := clast;
  add_prefix_suffix := [];
  duplicate_vowels := dup; reverse_words := rev;
  numeric_only := false; exact_digits := 0; add_variants := false |}.

(** An engine without a variants table. *)
Definition engine_of (ws : list pystr) (ds : list date) (opt : Options) : Engine :=
  {| words := List.filter nonempty ws; dates := ds; o := opt;
     variants_map := ∅; variant_siblings := ∅ |}.


(** The strict lexicographic order on strings, by code point. *)
Inductive str_lt : pystr -> pystr -> Prop :=
| str_lt_nil c s : str_lt [] (c :: s)
| str_lt_head x y a b : x < y -> str_lt (x :: a) (y :: b)
| str_lt_tail x a b : str_lt a b -> str_lt (x :: a) (x :: b).

(** ** The mutator, one transform at a time *)

Inductive transform : Type :=
| T_upper | T_lower | T_capitalize | T_leet | T_dup_vowels | T_reverse
| T_cap_first | T_cap_last.

Definition apply_transform {U : PyUnicode} (t : transform) (w : pystr)
    : pystr :=
  match t with
  | T_upper => str_upper w
  | T_lower => str_lower w
  | T_capitalize => str_capitalize w
  | T_leet => translate LEET w
  | T_dup_vowels => re_sub_class VOWELS vowel_template w
  | T_reverse => rev w
  | T_cap_first => _cap_first_tokens w
  | T_cap_last => str_lower (List.removelast w) ++ str_upper [List.last w 0]
  end.

(** When [_mutate] applies the transform to the candidate [w]. *)
Definition enabled (opt : Options) (t : transform) (w : pystr) : bool :=
  match t with
  | T_upper | T_lower | T_capitalize => add_casing opt
  | T_leet => add_leet opt
  | T_dup_vowels => duplicate_vowels opt
  | T_reverse => reverse_words opt
  | T_cap_first => cap_first opt && nonempty w
  | T_cap_last => cap_last opt && (0 <? length w)%nat
  end.

(** The substitution table in the words of the specification:
    a→@, A→@, e→€, E→3, i→!, I→1, o→¡, O→0, s→$, S→5. *)
Definition leet_table_spec (c : N) : N :=
  if c =? 97 then 64 else if c =? 65 then 64
  else if c =? 101 then 8364 else if c =? 69 then 51
  else if c =? 105 then 33 else if c =? 73 then 49
  else if c =? 111 then 161 else if c =? 79 then 48
  else if c =? 115 then 36 else if c =? 83 then 53
  else c.

(** The same table with A→4. *)
Definition leet_table_code (c : N) : N :=
  if c =? 97 then 64 else if c =? 65 then 52
  else if c =? 101 then 8364 else if c =? 69 then 51
  else if c =? 105 then 33 else if c =? 73 then 49
  else if c =? 111 then 161 else if c =? 79 then 48
  else if c =? 115 then 36 else if c =? 83 then 53
  else c.

(** Doubling the vowels, in the words of the specification. *)
Definition double_vowels_spec (w : pystr) : pystr :=
  flat_map (fun c => if bool_decide (c ∈ VOWELS) then [c; c] else [c]) w.

(** ** Character classes of a mask, in the words of the specification *)

Inductive char_class : Type := Lower | Upper | Digit | Special | Other.

(** Lower-case letter, upper-case letter, digit, the space or an ASCII
    punctuation character, anything else. *)
Definition classify (c : N) : char_class :=
  if in_range 97 122 c then Lower
  else if in_range 65 90 c then Upper
  else if in_range 48 57 c then Digit
  else if (c =? 32) || in_range 33 47 c || in_range 58 64 c
          || in_range 91 96 c || in_range 123 126 c then Special
  else Other.

Definition class_symbol (k : char_class) : pystr :=
  match k with
  | Lower => py "?l"
  | Upper => py "?u"
  | Digit => py "?d"
  | Special => py "?s"
  | Other => py "?a"
  end.

(** ** The shape of what [split_runs] returns

    Word pieces and separator runs alternate; a separator run is not empty,
    and neither is a word piece between two runs. *)
Definition starts_ok (parts : list pystr) : Prop :=
  match parts with
  | [] => False
  | [_] => True
  | w :: _ => w ≠ []
  end.

Inductive pieces (sep : N -> bool) : list pystr -> Prop :=
| pieces_one w : Forall (fun c => sep c = false) w -> pieces sep [w]
| pieces_cons w d rest :
    Forall (fun c => sep c = false) w ->
    d ≠ [] -> Forall (fun c => sep c = true) d ->
    pieces sep rest -> starts_ok rest ->
    pieces sep (w :: d :: rest).

(** The word characters of ASCII: what \w matches there. *)
Definition ascii_word (c : N) : bool := ascii_isalnum c || (c =? 95).

(** ** Sample inputs *)

Definition sample_word_options : Options := {|
  min_len := 3; max_len := 4; separators := [py "-"];
  add_leet := true; add_casing := true; add_separators := true;
  cap_first := true; cap_last := true; add_prefix_suffix := py "!";
  duplicate_vowels := true; reverse_words := true;
  numeric_only := false; exact_digits := 0; add_variants := true |}.

Definition sample_bank_options : Options := {|
  min_len := 6; max_len := 10; separators := SEP_SET;
  add_leet := false; add_casing := false; add_separators := false;
  cap_first := false; cap_last := false; add_prefix_suffix := [];
  duplicate_vowels := false; reverse_words := false;
  numeric_only := true; exact_digits := 2; add_variants := false |}.

(** ** Predicates used by the properties of the engine *)

(** The strings other than [x]. *)
Definition differs (x : pystr) (y : pystr) : bool :=
  negb (bool_decide (y = x)).

(** The number of ordered arrangements of [r] out of [n] items. *)
Fixpoint arrangements (n r : nat) : nat :=
  match r with
  | O => 1
  | S r' => n * arrangements (n - 1) r'
  end.

(** [p'] is [p] up to the case of its ASCII letters, and is ASCII. *)
Definition same_letters (p p' : pystr) : Prop :=
  map ascii_lower p' = map ascii_lower p ∧ forallb is_ascii p' = true.

(** ** Writing the rule file

    The rules that [_export_rule_file] writes, one per line: an empty rule
    is written as a colon.  Nothing is written when there is no rule. *)
Inductive rule_style : Type := Hashcat | John.

Definition rule_line (r : pystr) : pystr := if nonempty r then r else py ":".

Definition rule_file_lines {U : PyUnicode} (style : rule_style)
    (engine : option Engine) : option (list pystr) :=
  let rules := match style with
               | Hashcat => _build_hashcat_rules engine
               | John => _build_john_rules engine
               end in
  match rules with
  | [] => None
  | _ => Some (map rule_line rules)
  end.

(** A Hashcat token in the spelling of John: the no-op is the empty rule,
    and an append rule starts with A instead of the dollar sign. *)
Definition john_spelling (r : pystr) : pystr :=
  if bool_decide (r = py ":") then []
  else match r with
       | c :: rest => if c =? 36 then 65 :: rest else r
       | [] => r
       end.

(** ** Ranking the masks

    [sorted(masks.items(), key=lambda kv: (-kv[1], kv[0]))] of
    [_export_masks], and the lines it writes: the most frequent mask first,
    masks that are as frequent in the order of [sorted]; nothing is written
    for an empty list of words. *)
Definition mask_rank_le (a b : pystr * nat) : Prop :=
  Is_true ((b.2 <? a.2)%nat || ((a.2 =? b.2)%nat && str_leb a.1 b.1)).

Definition ordered_masks (ws : list pystr) : list (pystr * nat) :=
  merge_sort mask_rank_le (map_to_list (count_masks ws)).

Definition mask_file_lines (ws : list pystr) : option (list pystr) :=
  match ws with
  | [] => None
  | _ => Some (map fst (ordered_masks ws))
  end.

(** How many of the words have the mask [m]. *)
Definition occurrences (m : pystr) (ws : list pystr) : nat :=
  length (List.filter (fun w => bool_decide (word_mask w = m)) ws).

(** The members of the group of one entry of the variants map. *)
Definition group_members {U : PyUnicode} (entry : pystr * list pystr)
    : gset pystr :=
  {[str_lower entry.1]} ∪ list_to_set (map str_lower entry.2).

(** Nobody is their own sibling, and siblings are mutual. *)
Definition mutual (sib : gmap pystr (gset pystr)) : Prop :=
  ∀ v s, sib !! v = Some s →
    (v ∉ s) ∧ ∀ u, u ∈ s → ∃ s', sib !! u = Some s' ∧ v ∈ s'.

(** A variants map with one entry. *)
Definition sample_variants : gmap pystr (list pystr) :=
  {[py "bill" := [py "WILL"; py "Billy"]]}.

(** * Properties *)

(** ** Deduplication and the length window *)

Lemma uniq_loop_elem (seen : gset pystr) (out lst : list pystr) (x : pystr) :
  x ∈ uniq_loop seen out lst ↔ x ∈ out ∨ (x ∈ lst ∧ x ∉ seen).
Proof.
  revert seen out. induction lst as [|w rest IH]; intros seen out; simpl.
  - split; [auto | intros [H | [H _]]; [done | by apply elem_of_nil in H]].
  - destruct (decide (w ∈ seen)) as [Hw | Hw]; rewrite IH.
    + split; intros [H | [H Hs]]; auto.
      * right. split; [by apply elem_of_cons; right | done].
      * apply elem_of_cons in H as [-> | H]; [done | auto].
    + rewrite elem_of_app, list_elem_of_singleton, not_elem_of_union,
        elem_of_singleton, elem_of_cons.
      destruct (decide (x = w)) as [-> | Hne]; intuition congruence.
Qed.

Lemma uniq_loop_NoDup (seen : gset pystr) (out lst : list pystr) :
  NoDup out → (∀ x, x ∈ out → x ∈ seen) → NoDup (uniq_loop seen out lst).
Proof.
  revert seen out. induction lst as [|w rest IH]; intros seen out Hnd Hsub;
    simpl; [done |].
  destruct (decide (w ∈ seen)) as [Hw | Hw]; [by apply IH |].
  apply IH.
  - apply NoDup_app. split_and!; [done | | apply NoDup_singleton].
    intros x Hx Hx'. apply list_elem_of_singleton in Hx' as ->. auto.
  - intros x [Hx | Hx%list_elem_of_singleton]%elem_of_app; set_solver.
Qed.

Lemma uniq_loop_fresh (seen : gset pystr) (out lst : list pystr) :
  NoDup lst → (∀ x, x ∈ lst → x ∉ seen) → uniq_loop seen out lst = out ++ lst.
Proof.
  revert seen out. induction lst as [|w rest IH]; intros seen out Hnd Hfresh;
    simpl; [by rewrite app_nil_r |].
  apply NoDup_cons in Hnd as [Hw Hnd].
  destruct (decide (w ∈ seen)) as [Hin | _].
  - exfalso. apply (Hfresh w); [left | done].
  - rewrite IH, <- app_assoc; [done.. | ].
    intros x Hx. rewrite not_elem_of_union, elem_of_singleton. split.
    + intros ->. done.
    + apply Hfresh. by right.
Qed.

Lemma uniq_NoDup (lst : list pystr) : NoDup (uniq lst).
Proof. apply uniq_loop_NoDup; [constructor | by intros x Hx%elem_of_nil]. Qed.

Lemma uniq_elem (lst : list pystr) (x : pystr) : x ∈ uniq lst ↔ x ∈ lst.
Proof.
  unfold uniq. rewrite uniq_loop_elem. split.
  - intros [H%elem_of_nil | [H _]]; done.
  - intros H. right. split; [done | apply not_elem_of_empty].
Qed.

Lemma uniq_of_NoDup (lst : list pystr) : NoDup lst → uniq lst = lst.
Proof.
  intros Hnd. unfold uniq. rewrite uniq_loop_fresh; [done.. |].
  intros x _. apply not_elem_of_empty.
Qed.

Lemma filter_len_elem (opt : Options) (lst : list pystr) (s : pystr) :
  s ∈ filter_len opt lst ↔
  s ∈ lst ∧ (min_len opt ≤ Z.of_nat (length s) ≤ max_len opt)%Z.
Proof.
  unfold filter_len. rewrite !list_elem_of_In, filter_In, andb_true_iff.
  rewrite Z.leb_le, Z.leb_le. tauto.
Qed.

(** The word path of [generate], as one expression. *)
Lemma generate_words_eq `{U : PyUnicode} `{L : Lexicon} (e : Engine) :
  numeric_only (o e) = false →
  generate e =
  (Ok (_uniq (_filter e (_prefix_suffix e (_mutate e (_combine e
         (_dates e ++ (if add_variants (o e) then _enrich_words e (words e)
                       else words e))))))), e).
Proof.
  intros Hnum. unfold generate, mbind, M_bind, bind, read, mret, M_ret, ret.
  by rewrite Hnum.
Qed.

(** C1. For every valid [Options] with [numeric_only] false, [generate]
    returns a list in which no string occurs twice and every string has a
    length between [min_len] and [max_len] inclusive. *)
Theorem generate_window_and_unique `{U : PyUnicode} `{L : Lexicon}
    (e : Engine) :
  validate (o e) = Ok tt →
  numeric_only (o e) = false →
  ∃ out, run generate e = Ok out ∧ NoDup out ∧
    ∀ s, s ∈ out →
      (min_len (o e) ≤ Z.of_nat (length s) ≤ max_len (o e))%Z.
Proof.
  intros _ Hnum. unfold run. rewrite generate_words_eq by done.
  eexists; split; [reflexivity |]. split; [apply uniq_NoDup |].
  intros s Hs. unfold _uniq, _filter in Hs. rewrite uniq_elem in Hs.
  by apply filter_len_elem in Hs as [_ Hs].
Qed.

Lemma generate_window_and_unique_witness :
  ∃ out, run generate (engine_of [py "ab"; py "C"] [] sample_word_options)
         = Ok out ∧ NoDup out ∧
    ∀ s, s ∈ out → (3 ≤ Z.of_nat (length s) ≤ 4)%Z.
Proof.
  apply (generate_window_and_unique
           (engine_of [py "ab"; py "C"] [] sample_word_options));
    reflexivity.
Defined.

(** ** Banking mode *)

Lemma StronglySorted_le_lt (l : list N) :
  StronglySorted N.le l → NoDup l → StronglySorted N.lt l.
Proof.
  induction 1 as [|a l Hs IH Hall]; intros Hnd; constructor.
  - apply IH. by apply NoDup_cons in Hnd as [_ ?].
  - apply NoDup_cons in Hnd as [Ha _].
    apply Forall_forall. intros y Hy.
    assert (a ≤ y) by (eapply Forall_forall in Hall; done).
    assert (a ≠ y) by (by intros ->).
    lia.
Qed.

Lemma StronglySorted_irrefl_NoDup {A} (R : relation A) (l : list A) :
  (∀ x, ¬ R x x) → StronglySorted R l → NoDup l.
Proof.
  intros Hirr. induction 1 as [|a l Hs IH Hall]; constructor; [|done].
  intros Ha. apply (Hirr a). eapply Forall_forall in Hall; done.
Qed.

Lemma StronglySorted_map {A B} (R : relation A) (S : relation B)
    (f : A → B) (l : list A) :
  (∀ x y, R x y → S (f x) (f y)) →
  StronglySorted R l → StronglySorted S (map f l).
Proof.
  intros Hf. induction 1 as [|a l Hs IH Hall]; simpl; constructor; [done |].
  apply Forall_forall. intros y (x & <- & Hx)%list_elem_of_In%in_map_iff.
  apply Hf. eapply Forall_forall in Hall; [done | by apply list_elem_of_In].
Qed.

Lemma str_lt_irrefl (s : pystr) : ¬ str_lt s s.
Proof. induction s as [|c s IH]; inversion 1; subst; [lia | done]. Qed.

Lemma product_row_sorted (l : pystr) (rows : list pystr) :
  StronglySorted N.lt l → StronglySorted str_lt rows →
  StronglySorted str_lt (flat_map (fun c => map (cons c) rows) l).
Proof.
  intros Hl Hrows. induction Hl as [|a l Hs IH Hall]; simpl; [constructor |].
  apply StronglySorted_app_2; [| | done].
  - intros x1 x2 (t1 & <- & _)%list_elem_of_In%in_map_iff
      (c & Hc & (t2 & <- & _)%in_map_iff)%list_elem_of_In%in_flat_map.
    apply str_lt_head.
    eapply Forall_forall in Hall; [done | by apply list_elem_of_In].
  - eapply StronglySorted_map; [| done]. intros x y. apply str_lt_tail.
Qed.

Lemma product_sorted (alphabet : pystr) (n : nat) :
  StronglySorted N.lt alphabet → StronglySorted str_lt (product alphabet n).
Proof.
  intros Ha. induction n as [|n IH]; simpl.
  - repeat constructor.
  - by apply product_row_sorted.
Qed.

Lemma product_length (alphabet : pystr) (n : nat) :
  length (product alphabet n) = (length alphabet ^ n)%nat.
Proof.
  induction n as [|n IH]; simpl; [done |].
  rewrite (flat_map_constant_length (c := (length alphabet ^ n)%nat));
    [done |].
  intros c _. by rewrite length_map.
Qed.

Lemma product_elem (alphabet : pystr) (n : nat) (s : pystr) :
  s ∈ product alphabet n → length s = n ∧ ∀ c, c ∈ s → c ∈ alphabet.
Proof.
  revert s. induction n as [|n IH]; simpl; intros s Hs.
  - apply list_elem_of_singleton in Hs as ->.
    split; [done | by intros c Hc%elem_of_nil].
  - apply list_elem_of_In, in_flat_map in Hs as (c & Hc & Hs).
    apply in_map_iff in Hs as (t & <- & Ht).
    apply list_elem_of_In, IH in Ht as [Hlen Hall].
    split; [simpl; lia |].
    intros c' [-> | Hc']%elem_of_cons; [by apply list_elem_of_In | auto].
Qed.

Section Numeric.
Context {U : PyUnicode}.

Lemma digit_set_elem (src : pystr) (c : N) :
  c ∈ digit_set src ↔ c ∈ src ∧ uni_isdecimal c = true.
Proof.
  unfold digit_set.
  by rewrite elem_of_list_to_set, list_elem_of_In, filter_In, <- list_elem_of_In.
Qed.

Lemma digit_alphabet_perm (src : pystr) :
  digit_alphabet src ≡ₚ elements (digit_set src).
Proof. apply merge_sort_Permutation. Qed.

Lemma digit_alphabet_elem (src : pystr) (c : N) :
  c ∈ digit_alphabet src ↔ c ∈ digit_set src.
Proof. by rewrite digit_alphabet_perm, elem_of_elements. Qed.

Lemma digit_alphabet_length (src : pystr) :
  length (digit_alphabet src) = size (digit_set src).
Proof. by rewrite digit_alphabet_perm. Qed.

Lemma digit_alphabet_sorted (src : pystr) :
  StronglySorted N.lt (digit_alphabet src).
Proof.
  apply StronglySorted_le_lt.
  - apply StronglySorted_merge_sort; [apply _ | intros x y; lia].
  - rewrite digit_alphabet_perm. apply NoDup_elements.
Qed.

Lemma digit_alphabet_nonempty (src : pystr) :
  nonempty (digit_alphabet src) = true ↔ (0 < size (digit_set src))%nat.
Proof.
  rewrite <- digit_alphabet_length.
  destruct (digit_alphabet src); simpl; split; (done || lia).
Qed.

Context {L : Lexicon}.

(** Banking mode of [generate], as one expression. *)
Lemma generate_numeric_eq (e : Engine) :
  numeric_only (o e) = true →
  generate e =
  (let digits := digit_alphabet (numeric_source e) in
   if nonempty digits then
     if (exact_digits (o e) <? 0)%Z
     then Raise (ValueError "repeat argument cannot be negative")
     else Ok (_uniq (product digits (Z.to_nat (exact_digits (o e)))))
   else Raise no_digits_error, e).
Proof.
  intros Hnum. unfold generate, _generate_numeric, mbind, M_bind, bind, read,
    mret, M_ret, ret, raise. rewrite Hnum. simpl.
  destruct (nonempty _); [| done]. by destruct (_ <? 0)%Z.
Qed.

Lemma valid_exact_digits (opt : Options) :
  validate opt = Ok tt → numeric_only opt = true → (1 ≤ exact_digits opt)%Z.
Proof.
  unfold validate. intros Hv Hnum. rewrite Hnum in Hv.
  destruct (_ >? _)%Z; [done |]. destruct (negb _); [done |].
  simpl in Hv. destruct (exact_digits opt <? 1)%Z eqn:Hlt; [done |].
  by apply Z.ltb_ge in Hlt.
Qed.

(** The list that banking mode returns when there is a digit. *)
Lemma generate_numeric_ok (e : Engine) :
  numeric_only (o e) = true →
  (0 ≤ exact_digits (o e))%Z →
  (0 < size (digit_set (numeric_source e)))%nat →
  run generate e =
  Ok (product (digit_alphabet (numeric_source e))
              (Z.to_nat (exact_digits (o e)))).
Proof.
  intros Hnum Hlen Hd. unfold run. rewrite generate_numeric_eq by done.
  simpl. apply digit_alphabet_nonempty in Hd. rewrite Hd.
  destruct (_ <? 0)%Z eqn:Hneg; [apply Z.ltb_lt in Hneg; lia |].
  unfold _uniq. rewrite uniq_of_NoDup; [done |].
  eapply StronglySorted_irrefl_NoDup; [apply str_lt_irrefl |].
  apply product_sorted, digit_alphabet_sorted.
Qed.

End Numeric.

(** C2. In banking mode with [exact_digits = len ≥ 1], if the set of the
    distinct digit characters of the concatenation of the words and the
    formatted dates has [d > 0] elements, [generate] returns [d ^ len]
    strings, no two of them equal, each of length [len] and made of
    characters of that set only. *)
Theorem numeric_generation_count `{U : PyUnicode} `{L : Lexicon}
    (e : Engine) (len d : nat) :
  numeric_only (o e) = true →
  exact_digits (o e) = Z.of_nat len →
  (1 ≤ len)%nat →
  size (digit_set (numeric_source e)) = d →
  (0 < d)%nat →
  ∃ out, run generate e = Ok out ∧ length out = (d ^ len)%nat ∧ NoDup out ∧
    ∀ s, s ∈ out →
      length s = len ∧ ∀ c, c ∈ s → c ∈ digit_set (numeric_source e).
Proof.
  intros Hnum Hlen Hpos Hd Hd0.
  rewrite generate_numeric_ok by (done || lia).
  rewrite Hlen, Nat2Z.id. eexists; split; [reflexivity |]. split_and!.
  - by rewrite product_length, digit_alphabet_length, Hd.
  - eapply StronglySorted_irrefl_NoDup; [apply str_lt_irrefl |].
    apply product_sorted, digit_alphabet_sorted.
  - intros s [Hl Hall]%product_elem. split; [done |].
    intros c Hc. by apply digit_alphabet_elem, Hall.
Qed.

Lemma numeric_generation_count_witness :
  ∃ out, run generate (engine_of [py "ab12"] [] sample_bank_options) = Ok out
    ∧ length out = (2 ^ 2)%nat ∧ NoDup out ∧
    ∀ s, s ∈ out →
      length s = 2%nat ∧
      ∀ c, c ∈ s → c ∈ digit_set (numeric_source
                        (engine_of [py "ab12"] [] sample_bank_options)).
Proof.
  apply (numeric_generation_count
           (engine_of [py "ab12"] [] sample_bank_options) 2 2);
    (reflexivity || lia).
Defined.

(** Scenario C of the specification. *)
Example scenario_C :
  run generate (engine_of [py "ab12"] [] sample_bank_options)
  = Ok [py "11"; py "12"; py "21"; py "22"].
Proof. vm_compute. reflexivity. Qed.

(** C10. In banking mode with a digit in the input, the list that
    [generate] returns is strictly increasing in the lexicographic order of
    code points. *)
Theorem numeric_generation_sorted `{U : PyUnicode} `{L : Lexicon}
    (e : Engine) :
  validate (o e) = Ok tt →
  numeric_only (o e) = true →
  (0 < size (digit_set (numeric_source e)))%nat →
  ∃ out, run generate e = Ok out ∧ StronglySorted str_lt out.
Proof.
  intros Hv Hnum Hd. pose proof (valid_exact_digits _ Hv Hnum).
  rewrite generate_numeric_ok by (done || lia).
  eexists; split; [reflexivity |].
  apply product_sorted, digit_alphabet_sorted.
Qed.

Lemma numeric_generation_sorted_witness :
  ∃ out, run generate (engine_of [py "b7a3"; py "x3"] [] sample_bank_options)
         = Ok out ∧ StronglySorted str_lt out.
Proof.
  apply (numeric_generation_sorted
           (engine_of [py "b7a3"; py "x3"] [] sample_bank_options));
    (reflexivity || (vm_compute; lia)).
Defined.

(** C7. In banking mode [generate] raises the domain error exactly when no
    digit character occurs in the concatenation of the words and the
    formatted dates; it raises nothing else, and a call that raises leaves
    the engine as it was and returns no list. *)
Theorem numeric_error_iff_no_digit `{U : PyUnicode} `{L : Lexicon}
    (e : Engine) :
  validate (o e) = Ok tt →
  numeric_only (o e) = true →
  (run generate e = Raise no_digits_error ↔
     ∀ c, c ∈ numeric_source e → uni_isdecimal c = false) ∧
  (∀ x, run generate e = Raise x → x = no_digits_error) ∧
  (∀ x, (generate e).1 = Raise x → (generate e).2 = e).
Proof.
  intros Hv Hnum. pose proof (valid_exact_digits _ Hv Hnum) as Hlen.
  assert ((∀ c, c ∈ numeric_source e → uni_isdecimal c = false) ↔
          size (digit_set (numeric_source e)) = 0%nat) as Hzero.
  { rewrite size_empty_iff. split.
    - intros Hno. apply set_equiv. intros c. rewrite digit_set_elem.
      split; [intros [Hc Hd]; rewrite (Hno c Hc) in Hd; done |].
      by intros ?%not_elem_of_empty.
    - intros Hemp c Hc. destruct (uni_isdecimal c) eqn:Hd; [| done].
      exfalso. apply (not_elem_of_empty (C := gset N) c).
      rewrite <- Hemp. by apply digit_set_elem. }
  destruct (decide (size (digit_set (numeric_source e)) = 0%nat)) as [Hz | Hz].
  - assert (run generate e = Raise no_digits_error) as Hrun.
    { unfold run. rewrite generate_numeric_eq by done. simpl.
      destruct (nonempty _) eqn:Hne; [| done].
      apply digit_alphabet_nonempty in Hne. lia. }
    split_and!.
    + by rewrite Hzero.
    + intros x Hx. rewrite Hrun in Hx. congruence.
    + intros x _. by rewrite generate_numeric_eq.
  - assert (∃ out, run generate e = Ok out) as [out Hrun].
    { eexists. apply generate_numeric_ok; [done | lia | lia]. }
    split_and!.
    + rewrite Hzero. split; [by rewrite Hrun | done].
    + intros x Hx. by rewrite Hrun in Hx.
    + intros x _. by rewrite generate_numeric_eq.
Qed.

Lemma numeric_error_iff_no_digit_witness :
  (run generate (engine_of [py "abc"] [] sample_bank_options)
     = Raise no_digits_error ↔
   ∀ c, c ∈ numeric_source (engine_of [py "abc"] [] sample_bank_options) →
        uni_isdecimal c = false) ∧
  (∀ x, run generate (engine_of [py "abc"] [] sample_bank_options) = Raise x →
        x = no_digits_error) ∧
  (∀ x, (generate (engine_of [py "abc"] [] sample_bank_options)).1 = Raise x →
        (generate (engine_of [py "abc"] [] sample_bank_options)).2
        = engine_of [py "abc"] [] sample_bank_options).
Proof.
  apply (numeric_error_iff_no_digit
           (engine_of [py "abc"] [] sample_bank_options)); reflexivity.
Defined.

(** ** The mutator *)

Lemma elem_of_if_add (b : bool) (v : pystr) (acc : gset pystr) (x : pystr) :
  x ∈ (if b then {[v]} ∪ acc else acc) ↔ (b = true ∧ x = v) ∨ x ∈ acc.
Proof.
  destruct b.
  - rewrite elem_of_union, elem_of_singleton. tauto.
  - split; [auto | intros [[? _] | ?]; done].
Qed.

Section Mutator.
Context {U : PyUnicode}.

Lemma mutate_step_elem (opt : Options) (acc : gset pystr) (w x : pystr) :
  x ∈ mutate_step opt acc w ↔
  x ∈ acc ∨ ∃ t, enabled opt t w = true ∧ x = apply_transform t w.
Proof.
  unfold mutate_step. rewrite !elem_of_if_add.
  destruct (add_casing opt) eqn:Hcase.
  - rewrite !elem_of_union, !elem_of_singleton. split.
    + intros [[? ->] | [[? ->] | [[? ->] | [[? ->] | [[? ->] | H]]]]].
      * right. by exists T_cap_last.
      * right. by exists T_cap_first.
      * right. by exists T_reverse.
      * right. by exists T_dup_vowels.
      * right. by exists T_leet.
      * destruct H as [[[-> | ->] | ->] | H]; [right.. | by left].
        -- exists T_upper. by rewrite <- Hcase.
        -- exists T_lower. by rewrite <- Hcase.
        -- exists T_capitalize. by rewrite <- Hcase.
    + intros [H | [t [Ht ->]]]; [tauto |].
      destruct t; simpl in *; tauto.
  - split.
    + intros [[? ->] | [[? ->] | [[? ->] | [[? ->] | [[? ->] | H]]]]].
      * right. by exists T_cap_last.
      * right. by exists T_cap_first.
      * right. by exists T_reverse.
      * right. by exists T_dup_vowels.
      * right. by exists T_leet.
      * by left.
    + intros [H | [t [Ht ->]]]; [tauto |].
      destruct t; simpl in *; rewrite ?Hcase in *; (done || tauto).
Qed.

Lemma mutate_loop_elem (opt : Options) (ws : list pystr) (acc : gset pystr)
    (x : pystr) :
  x ∈ foldl (mutate_step opt) acc ws ↔
  x ∈ acc ∨ ∃ w t, w ∈ ws ∧ enabled opt t w = true ∧ x = apply_transform t w.
Proof.
  revert acc. induction ws as [|w ws IH]; intros acc; simpl.
  - split; [auto | intros [H | (w & t & Hw%elem_of_nil & _)]; done].
  - rewrite IH, mutate_step_elem. split.
    + intros [[H | (t & Ht & ->)] | (w' & t & Hw' & Ht & ->)]; [by left | ..].
      * right. exists w, t. split; [left | done].
      * right. exists w', t. split; [by right | done].
    + intros [H | (w' & t & [-> | Hw']%elem_of_cons & Ht & ->)]; eauto 8.
Qed.

Lemma mutate_elem (e : Engine) (lst : list pystr) (x : pystr) :
  x ∈ _mutate e lst ↔
  x ∈ lst ∨
  ∃ w t, w ∈ lst ∧ enabled (o e) t w = true ∧ x = apply_transform t w.
Proof.
  unfold _mutate. rewrite elem_of_elements, mutate_loop_elem.
  rewrite elem_of_list_to_set.
  by setoid_rewrite elem_of_elements; setoid_rewrite elem_of_list_to_set.
Qed.

(** The table of [LEET], entry by entry. *)
Lemma translate_LEET (w : pystr) : translate LEET w = map leet_table_code w.
Proof.
  unfold translate. apply map_ext. intros c.
  change LEET with
    (maketrans [97; 65; 101; 69; 105; 73; 111; 79; 115; 83]
               [64; 52; 8364; 51; 33; 49; 161; 48; 36; 53]).
  unfold maketrans, leet_table_code. simpl.
  repeat (rewrite lookup_insert; case_decide; [by subst |]).
  rewrite lookup_empty. simpl.
  repeat match goal with
         | |- context [?a =? ?b] => destruct (N.eqb_spec a b); [congruence |]
         end.
  done.
Qed.

(** What [re.sub] does with the template of [_mutate]. *)
Lemma vowel_template_literal (w : pystr) :
  re_sub_class VOWELS vowel_template w =
  flat_map (fun c => if bool_decide (c ∈ VOWELS) then py "\1\1" else [c]) w.
Proof. reflexivity. Qed.

End Mutator.

(** C9. The mutator is single-pass: it keeps every element of its input,
    and each string of its output is an element of the input or comes from
    one enabled transform applied to an element of the input. *)
Theorem mutate_single_pass `{U : PyUnicode} (e : Engine) (lst : list pystr) :
  (∀ w, w ∈ lst → w ∈ _mutate e lst) ∧
  (∀ x, x ∈ _mutate e lst →
     x ∈ lst ∨
     ∃ w t, w ∈ lst ∧ enabled (o e) t w = true ∧ x = apply_transform t w) ∧
  (∀ w t, w ∈ lst → enabled (o e) t w = true →
     apply_transform t w ∈ _mutate e lst).
Proof.
  split_and!.
  - intros w Hw. apply mutate_elem. by left.
  - intros x Hx. by apply mutate_elem.
  - intros w t Hw Ht. apply mutate_elem. right. by exists w, t.
Qed.

(** C3, as amended. With [add_leet] the mutator adds, for every candidate,
    the string obtained by replacing each character by the table
    a→@, A→4, e→€, E→3, i→!, I→1, o→¡, O→0, s→$, S→5 and leaving every
    other character as it is. *)
Theorem mutate_adds_leet `{U : PyUnicode} (e : Engine) (lst : list pystr)
    (w : pystr) :
  add_leet (o e) = true →
  w ∈ lst →
  map leet_table_code w ∈ _mutate e lst.
Proof.
  intros Hleet Hw. rewrite <- translate_LEET.
  apply mutate_elem. right. by exists w, T_leet.
Qed.

Lemma mutate_adds_leet_witness :
  map leet_table_code (py "Asea")
  ∈ _mutate (engine_of [] [] (only_flags true false false false false false))
            [py "Asea"].
Proof.
  apply (mutate_adds_leet
           (engine_of [] [] (only_flags true false false false false false))
           [py "Asea"] (py "Asea")); [reflexivity | left].
Defined.

(** C3, as the specification words it, fails on the upper-case A: the
    table of the specification sends it to the at sign, the code to 4. *)
Lemma leet_spec_table_counterexample :
  add_leet (only_flags true false false false false false) = true ∧
  py "A" ∈ [py "A"] ∧
  map leet_table_spec (py "A")
  ∉ _mutate (engine_of [] [] (only_flags true false false false false false))
            [py "A"].
Proof.
  split; [reflexivity |]. split; [left |].
  apply (bool_decide_eq_false_1 (_ ∈ _)). vm_compute. reflexivity.
Qed.

(** C5. With [duplicate_vowels] the variant of "ab" that the mutator adds is
    the five characters backslash, 1, backslash, 1, b; the doubled form
    "aab" is not in its output. *)
Theorem duplicate_vowels_on_ab :
  re_sub_class VOWELS vowel_template (py "ab") = py "\1\1b" ∧
  double_vowels_spec (py "ab") = py "aab" ∧
  py "\1\1b"
  ∈ _mutate (engine_of [] [] (only_flags false false true false false false))
            [py "ab"] ∧
  py "aab"
  ∉ _mutate (engine_of [] [] (only_flags false false true false false false))
            [py "ab"].
Proof.
  split; [reflexivity |]. split; [reflexivity |]. split.
  - apply (bool_decide_eq_true_1 (_ ∈ _)). vm_compute. reflexivity.
  - apply (bool_decide_eq_false_1 (_ ∈ _)). vm_compute. reflexivity.
Qed.

(** ** The export encoders *)

(** A property of code points that holds on all of ASCII by computation. *)
Lemma ascii_forall (P : N → bool) :
  forallb P (map N.of_nat (seq 0 128)) = true →
  ∀ c, is_ascii c = true → P c = true.
Proof.
  intros Hall c Hc. rewrite forallb_forall in Hall. apply Hall.
  unfold is_ascii in Hc. apply N.ltb_lt in Hc.
  apply in_map_iff. exists (N.to_nat c). split; [apply N2Nat.id |].
  apply in_seq. lia.
Qed.

Lemma specials_ascii (c : N) : c ∈ specials → is_ascii c = true.
Proof.
  intros Hc.
  assert (Forall (fun x => is_ascii x = true) specials) as Hall.
  { apply Forall_forall. intros x Hx%list_elem_of_In.
    revert x Hx. apply forallb_forall. vm_compute. reflexivity. }
  eapply Forall_forall in Hall; done.
Qed.

Lemma char_to_mask_classify (c : N) :
  _char_to_mask c = class_symbol (classify c).
Proof.
  destruct (is_ascii c) eqn:Hc.
  - revert c Hc.
    assert (∀ c, is_ascii c = true →
              bool_decide (_char_to_mask c = class_symbol (classify c)) = true)
      as Hall; [| intros c Hc; by apply (bool_decide_eq_true_1 _), Hall].
    apply ascii_forall. vm_compute. reflexivity.
  - assert (bool_decide (c ∈ specials) = false) as Hs.
    { apply (bool_decide_eq_false_2 _). intros Hin%specials_ascii.
      congruence. }
    unfold is_ascii in Hc. apply N.ltb_ge in Hc.
    unfold _char_to_mask, classify, in_range. rewrite Hs.
    repeat match goal with
           | |- context [?a <=? ?b] => destruct (N.leb_spec a b); try lia
           | |- context [?a =? ?b] => destruct (N.eqb_spec a b); try lia
           end; reflexivity.
Qed.

Lemma class_symbol_pair (c : N) : ∃ a b, class_symbol (classify c) = [a; b].
Proof. destruct (classify c); by eexists _, _. Qed.

Lemma symbols_length (s : pystr) :
  length (concat (map (fun c => class_symbol (classify c)) s))
  = (2 * length s)%nat.
Proof.
  induction s as [|c s IH]; [done |]. simpl.
  destruct (class_symbol_pair c) as (a & b & ->). simpl. rewrite IH. lia.
Qed.

Lemma symbols_lookup (s : pystr) (i : nat) (c : N) :
  s !! i = Some c →
  take 2 (drop (2 * i) (concat (map (fun c => class_symbol (classify c)) s)))
  = class_symbol (classify c).
Proof.
  revert i. induction s as [|c0 s IH]; intros i Hi; [done |].
  destruct (class_symbol_pair c0) as (a & b & Hab).
  destruct i as [|i]; simpl in *.
  - injection Hi as <-. by rewrite Hab.
  - rewrite Hab. simpl.
    replace (i + S (i + 0))%nat with (S (2 * i)) by lia. simpl. by apply IH.
Qed.

(** C6, as amended. The mask of a string [s] is made of [length s] class
    symbols of two characters each, so it is twice as long as [s]; the
    symbol at position [i] is the one of the class of the character of [s]
    at position [i]. *)
Theorem word_mask_symbols (s : pystr) :
  length (word_mask s) = (2 * length s)%nat ∧
  word_mask s = concat (map (fun c => class_symbol (classify c)) s) ∧
  ∀ i c, s !! i = Some c →
    take 2 (drop (2 * i) (word_mask s)) = class_symbol (classify c).
Proof.
  assert (word_mask s = concat (map (fun c => class_symbol (classify c)) s))
    as Heq.
  { unfold word_mask. f_equal. apply map_ext. apply char_to_mask_classify. }
  rewrite Heq. split_and!; [apply symbols_length | done |].
  intros i c. apply symbols_lookup.
Qed.

(** C6, as the specification words it, fails: the mask of a one-character
    string has two characters. *)
Lemma word_mask_length_counterexample :
  length (word_mask (py "a")) ≠ length (py "a").
Proof. vm_compute. discriminate. Qed.

Lemma sorted_strings_elem (rules : gset pystr) (x : pystr) :
  x ∈ sorted_strings rules ↔ x ∈ rules.
Proof.
  unfold sorted_strings. by rewrite merge_sort_Permutation, elem_of_elements.
Qed.

Lemma add_rules_elem {A} (f : A → pystr) (l : list A) (rules : gset pystr)
    (x : pystr) :
  x ∈ foldl (fun rules a => {[f a]} ∪ rules) rules l ↔
  x ∈ rules ∨ ∃ a, a ∈ l ∧ x = f a.
Proof.
  revert rules. induction l as [|a l IH]; intros rules; simpl.
  - split; [auto | intros [H | (a & Ha%elem_of_nil & _)]; done].
  - rewrite IH, elem_of_union, elem_of_singleton. split.
    + intros [[-> | H] | (b & Hb & ->)]; [| by left |].
      * right. exists a. split; [left | done].
      * right. exists b. split; [by right | done].
    + intros [H | (b & [-> | Hb]%elem_of_cons & ->)]; eauto.
Qed.

Section RuleFacts.
Context {U : PyUnicode}.

Lemma add_leet_rules_keeps (rules : gset pystr) (x : pystr) :
  x ∈ rules → x ∈ add_leet_rules rules.
Proof.
  unfold add_leet_rules. generalize leet_pairs. intros l. revert rules.
  induction l as [|[a b] l IH]; intros rules Hx; simpl; [done |].
  apply IH. rewrite !elem_of_union. auto.
Qed.

(** The John rules are a function of three option fields; [cap_last] is
    not one of them. *)
Lemma john_rules_depend_on (e1 e2 : Engine) :
  cap_first (o e1) = cap_first (o e2) →
  add_leet (o e1) = add_leet (o e2) →
  add_prefix_suffix (o e1) = add_prefix_suffix (o e2) →
  _build_john_rules (Some e1) = _build_john_rules (Some e2).
Proof.
  intros H1 H2 H3. unfold _build_john_rules. simpl. by rewrite H1, H2, H3.
Qed.

(** The Hashcat rules of any options with [cap_last] hold the rule for
    position 0. *)
Lemma hashcat_rules_cap_last (e : Engine) :
  cap_last (o e) = true → py "lT0" ∈ _build_hashcat_rules (Some e).
Proof.
  intros Hlast. unfold _build_hashcat_rules. simpl. rewrite Hlast.
  apply sorted_strings_elem, add_rules_elem. left.
  assert (∀ rules : gset pystr,
            py "lT0" ∈ rules →
            py "lT0" ∈ (if add_leet (o e) then add_leet_rules rules
                        else rules)) as Hleet.
  { intros rules Hr. destruct (add_leet (o e)); [| done].
    by apply add_leet_rules_keeps. }
  apply Hleet.
  apply (add_rules_elem (fun n => py "lT" ++ decimal (Z.to_N n))). right.
  exists 0%Z. split; [| reflexivity].
  apply elem_of_seqZ. lia.
Qed.

End RuleFacts.

(** C4. With [cap_last] as the only flag, the Hashcat rules hold one
    lower-then-toggle rule per position, from position 0 on; the John rules
    hold the no-op rule alone, as they do without the flag. *)
Theorem cap_last_rules_hashcat_only :
  py "lT0" ∈ _build_hashcat_rules
               (Some (engine_of [] [] (only_flags false false false false false true))) ∧
  _build_hashcat_rules
    (Some (engine_of [] [] (only_flags false false false false false false)))
  = [py ":"] ∧
  _build_john_rules
    (Some (engine_of [] [] (only_flags false false false false false true)))
  = [py ""] ∧
  _build_john_rules
    (Some (engine_of [] [] (only_flags false false false false false false)))
  = [py ""].
Proof.
  split_and!; [| vm_compute; reflexivity ..].
  apply (bool_decide_eq_true_1 (_ ∈ _)). vm_compute. reflexivity.
Qed.

(** ** Casing re-application *)

Section Split.
Variable sep : N -> bool.

Lemma split_runs_word (w : pystr) :
  Forall (fun c => sep c = false) w → split_runs sep w = [w].
Proof.
  induction 1 as [|c w Hc Hw IH]; simpl; [done |]. by rewrite IH, Hc.
Qed.

Lemma split_runs_app_word (w x p0 : pystr) (rest : list pystr) :
  Forall (fun c => sep c = false) w →
  split_runs sep x = p0 :: rest →
  split_runs sep (w ++ x) = (w ++ p0) :: rest.
Proof.
  intros Hw Hx. induction Hw as [|c w Hc Hw IH]; simpl; [done |].
  by rewrite IH, Hc.
Qed.

Lemma split_runs_app_sep (d x : pystr) (rest : list pystr) :
  d ≠ [] → Forall (fun c => sep c = true) d →
  split_runs sep x = rest → starts_ok rest →
  split_runs sep (d ++ x) = [] :: d :: rest.
Proof.
  intros Hne Hd Hx Hok. induction Hd as [|c d Hc Hd IH]; [done |]. simpl.
  destruct d as [|c' d'].
  - simpl. rewrite Hx, Hc.
    destruct rest as [|w' [|d1 rest']]; simpl in Hok; [done | by destruct w' |].
    by destruct w'.
  - rewrite IH by done. by rewrite Hc.
Qed.

Lemma split_runs_concat (parts : list pystr) :
  pieces sep parts → split_runs sep (concat parts) = parts.
Proof.
  induction 1 as [w Hw | w d rest Hw Hne Hd Hrest IH Hok]; simpl.
  - rewrite app_nil_r. by apply split_runs_word.
  - rewrite (split_runs_app_word w _ [] (d :: rest)); [by rewrite app_nil_r | done |].
    by apply split_runs_app_sep.
Qed.

Lemma split_runs_pieces (s : pystr) : pieces sep (split_runs sep s).
Proof.
  induction s as [|c s IH]; simpl; [by constructor |].
  destruct IH as [w Hw | w d rest Hw Hne Hd Hrest Hok].
  - destruct (sep c) eqn:Hc.
    + destruct w; (constructor; [done | done | by repeat constructor | by constructor | done]).
    + constructor. by constructor.
  - destruct (sep c) eqn:Hc.
    + destruct w as [|c' w].
      * constructor; [done | done | by constructor | done | done].
      * constructor; [done | done | by repeat constructor | by constructor | done].
    + constructor; [by constructor | done..].
Qed.

End Split.

Lemma ascii_case_facts (c : N) :
  is_ascii c = true →
  is_ascii (ascii_upper c) = true ∧ is_ascii (ascii_lower c) = true ∧
  ascii_upper (ascii_upper c) = ascii_upper c ∧
  ascii_lower (ascii_lower c) = ascii_lower c ∧
  ascii_word (ascii_upper c) = ascii_word c ∧
  ascii_word (ascii_lower c) = ascii_word c ∧
  (ascii_isalpha c = true → ascii_isalpha (ascii_upper c) = true) ∧
  (ascii_isalpha c = true → ascii_word c = true).
Proof.
  intros Hc.
  pose (P c := is_ascii (ascii_upper c) && is_ascii (ascii_lower c)
    && (ascii_upper (ascii_upper c) =? ascii_upper c)
    && (ascii_lower (ascii_lower c) =? ascii_lower c)
    && eqb (ascii_word (ascii_upper c)) (ascii_word c)
    && eqb (ascii_word (ascii_lower c)) (ascii_word c)
    && implb (ascii_isalpha c) (ascii_isalpha (ascii_upper c))
    && implb (ascii_isalpha c) (ascii_word c)).
  assert (P c = true) as HP.
  { revert c Hc. apply ascii_forall. vm_compute. reflexivity. }
  unfold P in HP. rewrite !andb_true_iff in HP.
  destruct HP as [[[[[[[H1 H2] H3] H4] H5] H6] H7] H8].
  apply N.eqb_eq in H3, H4. apply eqb_prop in H5, H6.
  split_and!; try done.
  - intros Ha. by rewrite Ha in H7.
  - intros Ha. by rewrite Ha in H8.
Qed.

Lemma forallb_map_ascii (f : N → N) (s : pystr) :
  (∀ c, is_ascii c = true → is_ascii (f c) = true) →
  forallb is_ascii s = true → forallb is_ascii (map f s) = true.
Proof.
  intros Hf. induction s as [|c s IH]; simpl; [done |].
  rewrite !andb_true_iff. intros [Hc Hs]. auto.
Qed.

Lemma map_idem_ascii (f : N → N) (s : pystr) :
  (∀ c, is_ascii c = true → f (f c) = f c) →
  forallb is_ascii s = true → map f (map f s) = map f s.
Proof.
  intros Hf. induction s as [|c s IH]; simpl; [done |].
  rewrite andb_true_iff. intros [Hc Hs]. by rewrite Hf, IH.
Qed.

Section Casing.
Context {U : PyUnicode} {HF : AsciiFaithful U}.

Lemma upper_idem_ascii (s : pystr) :
  forallb is_ascii s = true → str_upper (str_upper s) = str_upper s.
Proof.
  intros Hs. rewrite (upper_ascii s) by done.
  rewrite upper_ascii.
  - apply map_idem_ascii; [| done]. intros c Hc. apply ascii_case_facts, Hc.
  - apply forallb_map_ascii; [| done]. intros c Hc. apply ascii_case_facts, Hc.
Qed.

Lemma lower_idem_ascii (s : pystr) :
  forallb is_ascii s = true → str_lower (str_lower s) = str_lower s.
Proof.
  intros Hs. rewrite (lower_ascii s) by done.
  rewrite lower_ascii.
  - apply map_idem_ascii; [| done]. intros c Hc. apply ascii_case_facts, Hc.
  - apply forallb_map_ascii; [| done]. intros c Hc. apply ascii_case_facts, Hc.
Qed.

Lemma nonword_ascii (c : N) :
  is_ascii c = true → re_nonword c = negb (ascii_word c).
Proof. intros Hc. unfold re_nonword, ascii_word. by rewrite isalnum_ascii. Qed.

Lemma capitalize_piece_ascii (p p' : pystr) :
  forallb is_ascii p = true → capitalize_piece p = Some p' →
  ∃ c q, p = c :: q ∧ ascii_isalpha c = true ∧
         is_ascii c = true ∧ forallb is_ascii q = true ∧
         p' = ascii_upper c :: map ascii_lower q.
Proof.
  destruct p as [|c q]; simpl; [done |].
  rewrite andb_true_iff. intros [Hc Hq].
  rewrite (isalpha_ascii c) by done.
  destruct (ascii_isalpha c) eqn:Ha; [| done].
  intros [= <-]. exists c, q. split_and!; try done.
  rewrite (upper_ascii [c]), lower_ascii; [done | done |].
  simpl. by rewrite Hc.
Qed.

Lemma capitalize_piece_fixed (p p' : pystr) :
  forallb is_ascii p = true → capitalize_piece p = Some p' →
  capitalize_piece p' = Some p' ∧ forallb is_ascii p' = true.
Proof.
  intros Hp (c & q & -> & Ha & Hc & Hq & ->)%capitalize_piece_ascii; [| done].
  destruct (ascii_case_facts c Hc) as (Hu & _ & Huu & _ & _ & _ & Hau & _).
  assert (forallb is_ascii (map ascii_lower q) = true) as Hlq.
  { apply forallb_map_ascii; [| done]. intros x Hx. apply ascii_case_facts, Hx. }
  split; [| simpl; by rewrite Hu, Hlq].
  simpl. rewrite (isalpha_ascii _ Hu), (Hau Ha).
  rewrite (upper_ascii [_]), lower_ascii; [| done | simpl; by rewrite Hu].
  simpl. rewrite Huu. f_equal. f_equal.
  apply map_idem_ascii; [| done]. intros x Hx. apply ascii_case_facts, Hx.
Qed.

Lemma capitalize_piece_word (p p' : pystr) :
  forallb is_ascii p = true →
  Forall (fun c => re_nonword c = false) p →
  capitalize_piece p = Some p' →
  Forall (fun c => re_nonword c = false) p' ∧ p' ≠ [].
Proof.
  intros Hp Hw (c & q & -> & Ha & Hc & Hq & ->)%capitalize_piece_ascii;
    [| done].
  split; [| done].
  apply Forall_cons in Hw as [Hwc Hwq].
  destruct (ascii_case_facts c Hc) as (Hu & _ & _ & _ & Hwu & _ & _ & _).
  constructor.
  - rewrite nonword_ascii, Hwu by done. by rewrite nonword_ascii in Hwc.
  - clear Hp. induction q as [|x q IH]; simpl in *; [constructor |].
    apply andb_true_iff in Hq as [Hx Hq].
    apply Forall_cons in Hwq as [Hwx Hwq].
    destruct (ascii_case_facts x Hx) as (_ & Hl & _ & _ & _ & Hwl & _ & _).
    constructor; [| by apply IH].
    rewrite nonword_ascii, Hwl by done. by rewrite nonword_ascii in Hwx.
Qed.

Lemma capitalize_piece_sep (d : pystr) :
  forallb is_ascii d = true →
  Forall (fun c => re_nonword c = true) d →
  capitalize_piece d = None.
Proof.
  destruct d as [|c d]; simpl; [done |].
  rewrite andb_true_iff. intros [Hc _] [Hs _]%Forall_cons.
  rewrite (isalpha_ascii c) by done.
  destruct (ascii_isalpha c) eqn:Ha; [| done].
  rewrite nonword_ascii in Hs by done.
  destruct (ascii_case_facts c Hc) as (_ & _ & _ & _ & _ & _ & _ & Hw).
  by rewrite (Hw Ha) in Hs.
Qed.

Lemma capitalize_first_idem (parts : list pystr) :
  Forall (fun p => forallb is_ascii p = true) parts →
  capitalize_first (capitalize_first parts) = capitalize_first parts.
Proof.
  induction 1 as [|p parts Hp Hparts IH]; simpl; [done |].
  destruct (capitalize_piece p) as [p' |] eqn:Hcap; simpl.
  - by destruct (capitalize_piece_fixed p p' Hp Hcap) as [-> _].
  - by rewrite Hcap, IH.
Qed.

Lemma capitalize_first_pieces (parts : list pystr) :
  pieces re_nonword parts →
  Forall (fun p => forallb is_ascii p = true) parts →
  pieces re_nonword (capitalize_first parts) ∧
  (starts_ok parts → starts_ok (capitalize_first parts)).
Proof.
  induction 1 as [w Hw | w d rest Hw Hne Hd Hrest IH Hok]; intros Hasc; simpl.
  - apply Forall_cons in Hasc as [Hwa _].
    destruct (capitalize_piece w) as [w' |] eqn:Hcap; [| by split; [constructor |]].
    destruct (capitalize_piece_word w w' Hwa Hw Hcap) as [Hw' _].
    by split; [constructor |].
  - apply Forall_cons in Hasc as [Hwa [Hda Hra]%Forall_cons].
    destruct (capitalize_piece w) as [w' |] eqn:Hcap.
    + destruct (capitalize_piece_word w w' Hwa Hw Hcap) as [Hw' Hne'].
      by split; [constructor |].
    + rewrite (capitalize_piece_sep d) by done.
      destruct (IH Hra) as [IH1 IH2].
      split; [constructor; auto |].
      simpl. done.
Qed.

Lemma split_runs_ascii (sep : N → bool) (s : pystr) :
  forallb is_ascii s = true →
  Forall (fun p => forallb is_ascii p = true) (split_runs sep s).
Proof.
  induction s as [|c s IH]; simpl; [by repeat constructor |].
  rewrite andb_true_iff. intros [Hc Hs]. specialize (IH Hs).
  destruct (split_runs sep s) as [|p0 rest]; [by repeat constructor |].
  apply Forall_cons in IH as [Hp0 Hrest].
  destruct (sep c).
  - destruct p0 as [|c' p0'].
    + destruct rest as [|d rest'].
      * repeat constructor; simpl; by rewrite ?Hc.
      * apply Forall_cons in Hrest as [Hd Hrest'].
        repeat constructor; simpl; by rewrite ?Hc.
    + repeat constructor; simpl; by rewrite ?Hc.
  - constructor; [simpl; by rewrite Hc | done].
Qed.

End Casing.

#[global] Instance latin1_faithful : AsciiFaithful latin1_unicode.
Proof.
  split.
  - intros s. induction s as [|c s IH]; simpl; [done |].
    rewrite andb_true_iff. intros [Hc Hs]. simpl in IH. rewrite IH by done.
    unfold latin1_upper. by rewrite Hc.
  - intros s. induction s as [|c s IH]; simpl; [done |].
    rewrite andb_true_iff. intros [Hc Hs]. simpl in IH. rewrite IH by done.
    unfold latin1_lower. by rewrite Hc.
  - intros c Hc. simpl. unfold latin1_isalpha. by rewrite Hc.
  - intros c Hc. simpl. unfold latin1_isalnum. by rewrite Hc.
Qed.

(** C8, as amended. On ASCII candidates casing re-application is
    idempotent: for every ASCII string [s] and every reference [ref],
    re-applying the casing of [ref] to [_reapply_case s ref] gives
    [_reapply_case s ref] again. *)
Theorem reapply_case_idempotent_ascii `{U : PyUnicode} (HF : AsciiFaithful U)
    (s ref : pystr) :
  forallb is_ascii s = true →
  _reapply_case (_reapply_case s ref) ref = _reapply_case s ref.
Proof.
  intros Hs. unfold _reapply_case.
  destruct (str_isupper ref); [by apply upper_idem_ascii |].
  destruct (str_islower ref); [by apply lower_idem_ascii |].
  pose proof (split_runs_ascii re_nonword s Hs) as Hasc.
  destruct (capitalize_first_pieces _ (split_runs_pieces re_nonword s) Hasc)
    as [Hpieces _].
  by rewrite split_runs_concat, capitalize_first_idem.
Qed.


Lemma reapply_case_idempotent_ascii_witness :
  _reapply_case (_reapply_case (py "jean-pierre") (py "Bob")) (py "Bob")
  = _reapply_case (py "jean-pierre") (py "Bob").
Proof.
  apply (reapply_case_idempotent_ascii latin1_faithful (py "jean-pierre")
           (py "Bob")).
  reflexivity.
Defined.

(** C8, as the specification words it, fails outside ASCII: the sharp s
    U+00DF is a letter whose upper case is the two letters SS, so under a
    mixed-case reference it becomes "SS", and "SS" becomes "Ss". *)
Lemma reapply_case_counterexample :
  _reapply_case (_reapply_case [223] (py "aB")) (py "aB")
  ≠ _reapply_case [223] (py "aB").
Proof. vm_compute. discriminate. Qed.

(** * Further properties of the engine and the encoders *)
(** ** Configuration *)

(** X1. [validate] accepts the options exactly when
    [1 ≤ min_len ≤ max_len ≤ 128] and, in banking mode, [exact_digits ≥ 1];
    otherwise it raises. *)
Theorem validate_ok_iff (opt : Options) :
  validate opt = Ok tt ↔
  (1 ≤ min_len opt ≤ max_len opt)%Z ∧ (max_len opt ≤ 128)%Z ∧
  (numeric_only opt = true → (1 ≤ exact_digits opt)%Z).
Proof.
  unfold validate.
  destruct (Z.gtb_spec (min_len opt) (max_len opt)) as [Hgt | Hle].
  { split; [done | lia]. }
  destruct (Z.leb_spec 1 (min_len opt)), (Z.leb_spec (min_len opt) 128),
    (Z.leb_spec 1 (max_len opt)), (Z.leb_spec (max_len opt) 128); simpl;
    try (split; [done | lia]).
  destruct (numeric_only opt); simpl.
  - destruct (Z.ltb_spec (exact_digits opt) 1).
    + split; [done |]. intros (_ & _ & H'). specialize (H' eq_refl). lia.
    + split; [| done]. intros _. split_and!; (lia || auto).
  - split; [| done]. intros _. split_and!; (lia || done).
Qed.

Section Init.
Context {U : PyUnicode}.

(** X2. [WordlistEngine.__init__] raises exactly the error of [validate];
    an engine that is constructed holds valid options, the dates as given
    and the input words without the empty ones. *)
Theorem engine_construction (ws : list pystr) (ds : list date)
    (opt : Options) (vm : gmap pystr (list pystr)) :
  (∀ x, WordlistEngine ws ds opt vm = Raise x ↔ validate opt = Raise x) ∧
  (∀ e, WordlistEngine ws ds opt vm = Ok e →
     validate (o e) = Ok tt ∧ o e = opt ∧ dates e = ds ∧
     ([] ∉ words e) ∧ (∀ w, w ∈ words e ↔ w ∈ ws ∧ w ≠ [])).
Proof.
  unfold WordlistEngine. destruct (validate opt) as [[] | x0] eqn:Hv.
  - split; [by split |]. intros e [= <-]. simpl. split_and!; try done.
    + intros Hin%list_elem_of_In%filter_In. by destruct Hin.
    + intros w. rewrite list_elem_of_In, filter_In, <- list_elem_of_In.
      destruct w; simpl; intuition congruence.
  - split; [| done]. intros x. split; congruence.
Qed.

End Init.

(** ** Deduplication, first occurrence first *)

Lemma differs_same (x : pystr) : differs x x = false.
Proof. unfold differs. by rewrite bool_decide_eq_true_2. Qed.

Lemma differs_other (x y : pystr) : y ≠ x → differs x y = true.
Proof. intros H. unfold differs. by rewrite bool_decide_eq_false_2. Qed.

Lemma uniq_loop_out (seen : gset pystr) (out lst : list pystr) :
  uniq_loop seen out lst = out ++ uniq_loop seen [] lst.
Proof.
  revert seen out. induction lst as [|w rest IH]; intros seen out; simpl.
  - by rewrite app_nil_r.
  - destruct (decide (w ∈ seen)); [apply IH |].
    rewrite (IH _ (out ++ [w])), (IH _ [w]). by rewrite <- app_assoc.
Qed.

Lemma uniq_loop_seen (x : pystr) (seen : gset pystr) (lst : list pystr) :
  uniq_loop ({[x]} ∪ seen) [] lst
  = List.filter (differs x) (uniq_loop seen [] lst).
Proof.
  revert seen. induction lst as [|w rest IH]; intros seen; simpl; [done |].
  destruct (decide (w ∈ seen)) as [Hw | Hw].
  - rewrite decide_True by (apply elem_of_union; auto). apply IH.
  - destruct (decide (w = x)) as [-> | Hne].
    + rewrite decide_True by (apply elem_of_union_l, elem_of_singleton; done).
      rewrite (uniq_loop_out _ [x]). simpl. rewrite differs_same.
      rewrite <- IH.
      f_equal. apply set_eq. intros z. rewrite !elem_of_union. tauto.
    + rewrite decide_False
        by (rewrite elem_of_union, elem_of_singleton; intuition).
      rewrite (uniq_loop_out _ [w]), (uniq_loop_out _ ([] ++ [w])). simpl.
      rewrite differs_other by done.
      f_equal. rewrite <- IH. f_equal.
      apply set_eq. intros z. rewrite !elem_of_union. tauto.
Qed.

Lemma uniq_cons (x : pystr) (lst : list pystr) :
  uniq (x :: lst) = x :: List.filter (differs x) (uniq lst).
Proof.
  unfold uniq. simpl. rewrite decide_False by apply not_elem_of_empty.
  rewrite (uniq_loop_out _ ([] ++ [x])). simpl. f_equal.
  by rewrite uniq_loop_seen.
Qed.

Lemma filter_sublist {A} (P : A → bool) (l : list A) :
  List.filter P l `sublist_of` l.
Proof.
  induction l as [|a l IH]; simpl; [done |].
  destruct (P a); [by apply sublist_skip | by apply sublist_cons].
Qed.

Lemma uniq_sublist (lst : list pystr) : uniq lst `sublist_of` lst.
Proof.
  induction lst as [|x lst IH]; [done |]. rewrite uniq_cons.
  apply sublist_skip. etrans; [apply filter_sublist | done].
Qed.

(** X3. [_uniq] keeps the first occurrence of every string and the order
    of the list: its result has no duplicates and the elements of the
    input, it is a sublist of the input, its head is the head of the input
    followed by the rest deduplicated without that head, and a second
    [_uniq] changes nothing. *)
Theorem uniq_keeps_first_occurrences (lst : list pystr) :
  NoDup (_uniq lst) ∧
  (∀ x, x ∈ _uniq lst ↔ x ∈ lst) ∧
  _uniq lst `sublist_of` lst ∧
  (∀ x rest, lst = x :: rest →
     _uniq lst = x :: List.filter (fun y => negb (bool_decide (y = x)))
                                  (_uniq rest)) ∧
  _uniq (_uniq lst) = _uniq lst.
Proof.
  unfold _uniq. split_and!.
  - apply uniq_NoDup.
  - apply uniq_elem.
  - apply uniq_sublist.
  - intros x rest ->. apply uniq_cons.
  - apply uniq_of_NoDup, uniq_NoDup.
Qed.

Lemma filter_filter_comm {A} (P Q : A → bool) (l : list A) :
  List.filter P (List.filter Q l) = List.filter Q (List.filter P l).
Proof.
  induction l as [|a l IH]; simpl; [done |].
  destruct (P a) eqn:HP, (Q a) eqn:HQ; simpl; rewrite ?HP, ?HQ, IH; done.
Qed.

Lemma filter_differs_absent (P : pystr → bool) (x : pystr) (u : list pystr) :
  P x = false → List.filter (differs x) (List.filter P u) = List.filter P u.
Proof.
  intros HP. induction u as [|y u IH]; simpl; [done |].
  destruct (P y) eqn:HPy; simpl; [| done].
  rewrite differs_other, IH; [done |]. intros ->. congruence.
Qed.

Lemma uniq_filter (P : pystr → bool) (lst : list pystr) :
  uniq (List.filter P lst) = List.filter P (uniq lst).
Proof.
  induction lst as [|x lst IH]; [done |]. simpl. rewrite uniq_cons. simpl.
  destruct (P x) eqn:HP.
  - rewrite uniq_cons, IH. f_equal. apply filter_filter_comm.
  - by rewrite IH, filter_filter_comm, filter_differs_absent.
Qed.

Section FilterUniq.
Context {U : PyUnicode} {L : Lexicon}.

(** X4. The length filter and the deduplication commute; the filter is
    idempotent and keeps the order of the candidates. *)
Theorem filter_uniq_commute (e : Engine) (lst : list pystr) :
  _uniq (_filter e lst) = _filter e (_uniq lst) ∧
  _filter e (_filter e lst) = _filter e lst ∧
  _filter e lst `sublist_of` lst.
Proof.
  unfold _uniq, _filter, filter_len. split_and!.
  - apply uniq_filter.
  - induction lst as [|x lst IH]; simpl; [done |].
    match goal with |- context [if ?b then _ else _] => destruct b eqn:Hb end;
      simpl; rewrite ?Hb, IH; done.
  - apply filter_sublist.
Qed.

End FilterUniq.

(** ** The decorator *)

Section Decorator.
Context {U : PyUnicode} {L : Lexicon}.

(** X5. [_prefix_suffix] keeps every candidate and adds, for every
    candidate and every decoration character, the candidate with that
    character in front and the candidate with it behind, and nothing else:
    [n] candidates and [k] characters give [n * (1 + 2 * k)] strings.
    Without decoration characters the list is returned as it is. *)
Theorem prefix_suffix_adds_one_character (e : Engine) (lst : list pystr) :
  (∀ x, x ∈ _prefix_suffix e lst ↔
     x ∈ lst ∨
     ∃ w ch, w ∈ lst ∧ ch ∈ add_prefix_suffix (o e) ∧
             (x = ch :: w ∨ x = w ++ [ch])) ∧
  length (_prefix_suffix e lst)
  = (length lst * (1 + 2 * length (add_prefix_suffix (o e))))%nat ∧
  (add_prefix_suffix (o e) = [] → _prefix_suffix e lst = lst).
Proof.
  unfold _prefix_suffix. generalize (add_prefix_suffix (o e)). intros extra.
  split_and!.
  - intros x. destruct (nonempty extra) eqn:Hne.
    + rewrite elem_of_app. apply or_iff_compat_l.
      rewrite list_elem_of_In, in_flat_map. split.
      * intros (w & Hw & Hx). apply in_flat_map in Hx as (ch & Hch & Hx).
        exists w, ch. rewrite !list_elem_of_In. split_and!; [done.. |].
        simpl in Hx. intuition.
      * intros (w & ch & Hw & Hch & Hx). exists w.
        split; [by apply list_elem_of_In |]. apply in_flat_map. exists ch.
        split; [by apply list_elem_of_In |]. simpl. intuition.
    + destruct extra; [| done].
      split; [auto | intros [H | (w & ch & _ & Hch%elem_of_nil & _)]; done].
  - destruct (nonempty extra) eqn:Hne.
    + rewrite length_app.
      rewrite (flat_map_constant_length (c := (2 * length extra)%nat)); [lia |].
      intros w _.
      rewrite (flat_map_constant_length (c := 2%nat)); [lia | done].
    + destruct extra; [simpl; lia | done].
  - by intros ->.
Qed.

End Decorator.

(** ** Date fragments *)

Lemma digit_char_range (n : N) : in_range 48 57 (digit_char n) = true.
Proof.
  unfold in_range, digit_char.
  assert (n mod 10 < 10) as Hm by (apply N.mod_upper_bound; lia).
  revert Hm. generalize (n mod 10). intros m Hm.
  apply andb_true_iff. split; apply N.leb_le; lia.
Qed.


Section Dates.
Context {U : PyUnicode} {L : Lexicon}.


(** X7. In banking mode with valid options and at least one date,
    [generate] does not raise: it returns a non-empty list.  (The
    character database is asked to count the ASCII digits as decimal
    digits, as Python does.) *)
Theorem banking_mode_with_a_date_succeeds (e : Engine) :
  (∀ c, in_range 48 57 c = true → uni_isdecimal c = true) →
  validate (o e) = Ok tt →
  numeric_only (o e) = true →
  dates e ≠ [] →
  ∃ out, run generate e = Ok out ∧ out ≠ [].
Proof.
  intros Hdec Hv Hnum Hd.
  pose proof (valid_exact_digits _ Hv Hnum) as Hlen.
  assert (0 < size (digit_set (numeric_source e)))%nat as Hsize.
  { destruct (dates e) as [|d ds] eqn:Hds; [done |].
    assert (digit_char (day d / 10) ∈ digit_set (numeric_source e)) as Hin.
    { apply digit_set_elem. split; [| apply Hdec, digit_char_range].
      unfold numeric_source, _dates. rewrite Hds. simpl.
      apply elem_of_app. right. left. }
    apply elem_of_elements in Hin. unfold size, set_size. simpl.
    destruct (elements _); [by apply elem_of_nil in Hin | simpl; lia]. }
  rewrite generate_numeric_ok by (done || lia).
  eexists; split; [reflexivity |].
  intros Hnil. apply (f_equal length) in Hnil.
  rewrite product_length, digit_alphabet_length in Hnil. simpl in Hnil.
  apply Nat.pow_eq_0_iff in Hnil. lia.
Qed.

End Dates.

Lemma banking_mode_with_a_date_succeeds_witness :
  ∃ out,
    run generate
      (engine_of [] [{| year := 2001; month := 5; day := 12 |}]
                 sample_bank_options) = Ok out ∧ out ≠ [].
Proof.
  apply (banking_mode_with_a_date_succeeds
           (engine_of [] [{| year := 2001; month := 5; day := 12 |}]
                      sample_bank_options));
    [by intros c Hc | reflexivity | reflexivity | done].
Defined.

(** ** The combiner *)

Lemma selections_length {A} (l : list A) :
  length (selections l) = length l.
Proof. induction l as [|x l IH]; simpl; [done |]. by rewrite length_map, IH. Qed.

Lemma selections_elem {A} (l : list A) (x : A) (rest : list A) :
  In (x, rest) (selections l) → x :: rest ≡ₚ l.
Proof.
  revert x rest. induction l as [|a l IH]; intros x rest; simpl; [done |].
  intros [[= <- <-] | ((y & r) & [= <- <-] & Hin)%in_map_iff]; [done |].
  rewrite Permutation_swap. by rewrite (IH _ _ Hin).
Qed.

Lemma selections_pick {A} (l : list A) (x : A) :
  x ∈ l → ∃ rest, In (x, rest) (selections l).
Proof.
  induction 1 as [x l | x a l Hx [rest IH]]; simpl.
  - exists l. by left.
  - exists (a :: rest). right. apply in_map_iff. by exists (x, rest).
Qed.

Lemma permutations_length {A} (r : nat) (items : list A) :
  length (permutations r items) = arrangements (length items) r.
Proof.
  revert items. induction r as [|r IH]; intros items; simpl; [done |].
  rewrite (flat_map_constant_length
             (c := arrangements (length items - 1) r)).
  - by rewrite selections_length.
  - intros [x rest] Hin. rewrite length_map, IH.
    apply selections_elem, Permutation_length in Hin. simpl in Hin.
    f_equal. lia.
Qed.

Lemma permutations_elem {A} (r : nat) (items p : list A) :
  p ∈ permutations r items ↔ length p = r ∧ p ⊆+ items.
Proof.
  revert items p. induction r as [|r IH]; intros items p; simpl.
  - rewrite list_elem_of_singleton. split.
    + intros ->. split; [done | apply submseteq_nil_l].
    + intros [Hl _]. by destruct p.
  - rewrite list_elem_of_In, in_flat_map. split.
    + intros ([x rest] & Hsel & (q & <- & Hq)%in_map_iff).
      apply list_elem_of_In, IH in Hq as [Hl Hsub].
      split; [simpl; lia |].
      rewrite <- (selections_elem _ _ _ Hsel). by apply submseteq_skip.
    + intros [Hl Hsub]. destruct p as [|x q]; [done |].
      apply submseteq_cons_l in Hsub as (k & Hk & Hq).
      assert (x ∈ items) as Hx by (rewrite Hk; left).
      destruct (selections_pick _ _ Hx) as [rest Hsel].
      exists (x, rest). split; [done |]. apply in_map_iff. exists q.
      split; [done |]. apply list_elem_of_In, IH.
      split; [simpl in Hl; lia |].
      pose proof (selections_elem _ _ _ Hsel) as Hperm.
      rewrite Hk in Hperm. apply Permutation_cons_inv in Hperm.
      by rewrite Hperm.
Qed.

Lemma list_sum_scale {A} (f : A → nat) (k : nat) (l : list A) :
  list_sum (map (fun a => f a * k)%nat l) = (list_sum (map f l) * k)%nat.
Proof. induction l as [|a l IH]; simpl; [done |]. rewrite IH. lia. Qed.

Section Combiner.
Context {U : PyUnicode} {L : Lexicon}.

(** X8. The candidates of [_combine] are exactly the joins of the
    ordered arrangements of one to four items taken at distinct positions
    of the pool: joined with each separator when separators are enabled,
    concatenated otherwise. *)
Theorem combine_arrangements (e : Engine) (items : list pystr) (x : pystr) :
  x ∈ _combine e items ↔
  ∃ p, (1 ≤ length p ≤ 4)%nat ∧ p ⊆+ items ∧
       if add_separators (o e)
       then ∃ s, s ∈ separators (o e) ∧ x = join s p
       else x = concat p.
Proof.
  unfold _combine. rewrite list_elem_of_In, in_flat_map. split.
  - intros (r & Hr%in_seq & (p & Hp & Hx)%in_flat_map).
    apply list_elem_of_In, permutations_elem in Hp as [Hl Hsub].
    exists p. split; [lia |]. split; [done |].
    destruct (add_separators (o e)).
    + apply in_map_iff in Hx as (s & <- & Hs). exists s.
      by rewrite list_elem_of_In.
    + simpl in Hx. by destruct Hx.
  - intros (p & Hl & Hsub & Hx). exists (length p).
    pose proof (submseteq_length _ _ Hsub).
    split; [apply in_seq; lia |].
    apply in_flat_map. exists p.
    split; [by apply list_elem_of_In, permutations_elem |].
    destruct (add_separators (o e)).
    + destruct Hx as (s & Hs & ->). apply in_map_iff. exists s.
      by rewrite <- list_elem_of_In.
    + left. done.
Qed.

(** X9. The number of candidates of [_combine] over a pool of [n]
    items: the sum over [r] from 1 to [min 4 n] of the arrangements of [r]
    out of [n], times the number of separators when they are enabled. *)
Theorem combine_count (e : Engine) (items : list pystr) :
  length (_combine e items)
  = (list_sum (map (arrangements (length items))
                   (seq 1 (Nat.min 4 (length items))))
     * (if add_separators (o e) then length (separators (o e)) else 1))%nat.
Proof.
  unfold _combine. rewrite length_flat_map, <- list_sum_scale. f_equal.
  apply map_ext. intros r.
  erewrite flat_map_constant_length; [by rewrite permutations_length |].
  intros p _. simpl. destruct (add_separators (o e)); [| done].
  by rewrite length_map.
Qed.

End Combiner.

(** ** The pipeline on small inputs and on the base words *)

Lemma size_union_le (X Y : gset pystr) : (size (X ∪ Y) ≤ size X + size Y)%nat.
Proof.
  rewrite size_union_alt.
  assert (size (Y ∖ X) ≤ size Y)%nat; [| lia].
  apply subseteq_size. intros z. rewrite elem_of_difference. tauto.
Qed.

Lemma size_add_le (x : pystr) (X : gset pystr) :
  (size ({[x]} ∪ X) ≤ 1 + size X)%nat.
Proof. pose proof (size_union_le {[x]} X). by rewrite size_singleton in *. Qed.

Lemma size_list_to_set_le (l : list pystr) :
  (size (list_to_set l : gset pystr) ≤ length l)%nat.
Proof.
  induction l as [|x l IH].
  - change (list_to_set [] : gset pystr) with (∅ : gset pystr).
    by rewrite size_empty.
  - change (list_to_set (x :: l) : gset pystr)
      with ({[x]} ∪ list_to_set l : gset pystr).
    pose proof (size_add_le x (list_to_set l)). simpl. lia.
Qed.

Section Pipeline.
Context {U : PyUnicode} {L : Lexicon}.

Lemma mutate_nil (e : Engine) : _mutate e [] = [].
Proof. unfold _mutate. simpl. by rewrite elements_empty. Qed.

Lemma enrich_words_nil (e : Engine) : _enrich_words e [] = [].
Proof. unfold _enrich_words. simpl. rewrite elements_empty. simpl.
  by rewrite elements_empty. Qed.

Lemma prefix_suffix_retains (e : Engine) (lst : list pystr) (x : pystr) :
  x ∈ lst → x ∈ _prefix_suffix e lst.
Proof.
  intros Hx. unfold _prefix_suffix.
  destruct (nonempty _); [apply elem_of_app; by left | done].
Qed.

Lemma combine_single (e : Engine) (items : list pystr) (x : pystr) :
  add_separators (o e) = false ∨ separators (o e) ≠ [] →
  x ∈ items → x ∈ _combine e items.
Proof.
  intros Hsep Hx. unfold _combine. apply list_elem_of_In, in_flat_map.
  exists 1%nat. split.
  { apply in_seq. destruct items; [by apply elem_of_nil in Hx | simpl; lia]. }
  apply in_flat_map. exists [x].
  split; [apply list_elem_of_In, permutations_elem;
          by rewrite singleton_submseteq_l |].
  destruct (add_separators (o e)).
  - destruct Hsep as [? | Hsep]; [done |].
    destruct (separators (o e)) as [|s seps]; [done |]. by left.
  - left. simpl. by rewrite app_nil_r.
Qed.

Lemma size_cond_add (b : bool) (v : pystr) (X : gset pystr) (n : nat) :
  (size X ≤ n)%nat → (size (if b then {[v]} ∪ X else X) ≤ S n)%nat.
Proof.
  intros HX. destruct b; [| lia]. pose proof (size_add_le v X). lia.
Qed.

Lemma mutate_step_size (opt : Options) (acc : gset pystr) (w : pystr) :
  (size (mutate_step opt acc w) ≤ 8 + size acc)%nat.
Proof.
  unfold mutate_step. cbv zeta.
  change (8 + size acc)%nat with (S (S (S (S (S (3 + size acc)))))).
  do 5 apply size_cond_add.
  destruct (add_casing opt); [| lia].
  pose proof (size_union_le
                {[str_upper w; str_lower w; str_capitalize w]} acc).
  pose proof (size_union_le {[str_upper w; str_lower w]}
                            {[str_capitalize w]}).
  pose proof (size_union_le {[str_upper w]} {[str_lower w]}).
  rewrite !size_singleton in *. lia.
Qed.

Lemma mutate_loop_size (opt : Options) (ws : list pystr) (acc : gset pystr) :
  (size (foldl (mutate_step opt) acc ws) ≤ size acc + 8 * length ws)%nat.
Proof.
  revert acc. induction ws as [|w ws IH]; intros acc; simpl; [lia |].
  pose proof (IH (mutate_step opt acc w)).
  pose proof (mutate_step_size opt acc w). lia.
Qed.

Lemma mutate_length (e : Engine) (lst : list pystr) :
  (length (_mutate e lst) ≤ 9 * length lst)%nat.
Proof.
  unfold _mutate.
  pose proof (mutate_loop_size (o e) (elements (list_to_set lst : gset pystr))
                (list_to_set lst)) as Hs.
  pose proof (size_list_to_set_le lst).
  change (length (elements (foldl (mutate_step (o e)) (list_to_set lst)
                              (elements (list_to_set lst : gset pystr)))))
    with (size (foldl (mutate_step (o e)) (list_to_set lst)
                      (elements (list_to_set lst : gset pystr)))).
  change (length (elements (list_to_set lst : gset pystr)))
    with (size (list_to_set lst : gset pystr)) in Hs.
  lia.
Qed.

(** X10. Without words and dates [generate] returns the empty list on
    the word path and raises the no-digits error in banking mode. *)
Theorem generate_without_input (e : Engine) :
  words e = [] → dates e = [] →
  (numeric_only (o e) = false → run generate e = Ok []) ∧
  (numeric_only (o e) = true → run generate e = Raise no_digits_error).
Proof.
  intros Hw Hd. split; intros Hnum; unfold run.
  - rewrite generate_words_eq by done. simpl.
    unfold _dates. rewrite Hw, Hd. simpl. rewrite enrich_words_nil.
    replace (if add_variants (o e) then [] else []) with (@nil pystr)
      by (by destruct (add_variants (o e))).
    unfold _combine. simpl. rewrite mutate_nil.
    unfold _prefix_suffix, _filter, _uniq.
    by destruct (nonempty (add_prefix_suffix (o e))).
  - rewrite generate_numeric_eq by done. simpl.
    unfold numeric_source, _dates. rewrite Hw, Hd. simpl.
    unfold digit_alphabet, digit_set. simpl. by rewrite elements_empty.
Qed.

(** X11. On the word path every base word whose length is inside the
    window is among the generated candidates, provided that separators are
    off or at least one separator is configured. *)
Theorem generate_contains_basewords (e : Engine) (x : pystr) :
  numeric_only (o e) = false →
  add_separators (o e) = false ∨ separators (o e) ≠ [] →
  x ∈ basewords e →
  (min_len (o e) ≤ Z.of_nat (length x) ≤ max_len (o e))%Z →
  ∃ out, run generate e = Ok out ∧ x ∈ out.
Proof.
  intros Hnum Hsep Hx Hwin. unfold run.
  rewrite generate_words_eq by done. eexists; split; [reflexivity |].
  unfold basewords, _uniq in *. rewrite uniq_elem in *.
  unfold _filter. apply filter_len_elem. split; [| done].
  apply prefix_suffix_retains. apply mutate_elem. left.
  apply combine_single; [done |]. done.
Qed.

(** X12. The output of [_mutate] holds no string twice and at most
    nine strings per input candidate (the candidate and eight variants);
    with every mutation flag off it holds exactly the input strings. *)
Theorem mutate_bounded_growth (e : Engine) (lst : list pystr) :
  NoDup (_mutate e lst) ∧
  (length (_mutate e lst) ≤ 9 * length lst)%nat ∧
  (add_casing (o e) = false → add_leet (o e) = false →
   duplicate_vowels (o e) = false → reverse_words (o e) = false →
   cap_first (o e) = false → cap_last (o e) = false →
   ∀ x, x ∈ _mutate e lst ↔ x ∈ lst).
Proof.
  split_and!.
  - apply NoDup_elements.
  - apply mutate_length.
  - intros H1 H2 H3 H4 H5 H6 x. rewrite mutate_elem. split; [| auto].
    intros [H | (w & t & _ & Ht & _)]; [done |].
    destruct t; simpl in Ht; rewrite ?H1, ?H2, ?H3, ?H4, ?H5, ?H6 in Ht;
      done.
Qed.

End Pipeline.

(** ** The leet table *)

Lemma leet_table_code_facts (c : N) :
  (leet_table_code c ∉ py "aAeEiIoOsS") ∧
  leet_table_code (leet_table_code c) = leet_table_code c.
Proof.
  assert (∀ x, x ∈ py "aAeEiIoOsS" ↔
            x = 97 ∨ x = 65 ∨ x = 101 ∨ x = 69 ∨ x = 105 ∨ x = 73 ∨
            x = 111 ∨ x = 79 ∨ x = 115 ∨ x = 83) as Hkeys.
  { intros x. change (py "aAeEiIoOsS")
      with [97; 65; 101; 69; 105; 73; 111; 79; 115; 83].
    rewrite !elem_of_cons, elem_of_nil. tauto. }
  rewrite Hkeys. unfold leet_table_code.
  repeat match goal with
         | |- context [c =? ?b] => destruct (N.eqb_spec c b) as [-> | ?]
         end; simpl; (split; [lia | done]).
Qed.

(** X13. The leet variant has the length of the candidate, none of
    the ten letters a A e E i I o O s S, and applying the table twice is
    the same as applying it once. *)
Theorem leet_variant_shape (w : pystr) :
  length (translate LEET w) = length w ∧
  (∀ c, c ∈ translate LEET w → c ∉ py "aAeEiIoOsS") ∧
  translate LEET (translate LEET w) = translate LEET w.
Proof.
  rewrite !translate_LEET. split_and!.
  - apply length_map.
  - intros c (x & <- & _)%list_elem_of_In%in_map_iff.
    apply leet_table_code_facts.
  - rewrite map_map. apply map_ext. intros c. apply leet_table_code_facts.
Qed.

(** ** Capitalization touches the case of letters only *)

Lemma split_runs_join (sep : N → bool) (s : pystr) :
  concat (split_runs sep s) = s.
Proof.
  induction s as [|c s IH]; simpl; [done |].
  pose proof (split_runs_pieces sep s) as Hp.
  destruct (split_runs sep s) as [|p0 rest]; [inversion Hp |]. clear Hp.
  destruct (sep c).
  - destruct p0 as [|c' p0']; [destruct rest as [|d rest'] |];
      simpl in *; by rewrite IH.
  - simpl in *. by rewrite IH.
Qed.

Lemma ascii_lower_upper (c : N) :
  is_ascii c = true → ascii_lower (ascii_upper c) = ascii_lower c.
Proof.
  intros Hc. apply N.eqb_eq. revert c Hc.
  apply (ascii_forall (fun c => ascii_lower (ascii_upper c) =? ascii_lower c)).
  vm_compute. reflexivity.
Qed.

Lemma same_letters_concat (parts parts' : list pystr) :
  Forall2 same_letters parts parts' →
  same_letters (concat parts) (concat parts').
Proof.
  induction 1 as [|p p' parts parts' [Hp Ha] _ [IH1 IH2]]; [done |].
  split; simpl.
  - by rewrite !map_app, Hp, IH1.
  - by rewrite forallb_app, Ha, IH2.
Qed.

Section CaseOnly.
Context {U : PyUnicode} {HF : AsciiFaithful U}.

Lemma capitalize_piece_same (p p' : pystr) :
  forallb is_ascii p = true → capitalize_piece p = Some p' →
  same_letters p p'.
Proof.
  intros Hp Hcap.
  destruct (capitalize_piece_fixed p p' Hp Hcap) as [_ Ha].
  split; [| done].
  apply capitalize_piece_ascii in Hcap as (c & q & -> & _ & Hc & Hq & ->);
    [| done].
  simpl. rewrite ascii_lower_upper by done. f_equal.
  apply map_idem_ascii; [| done]. intros x Hx. apply ascii_case_facts, Hx.
Qed.

Lemma capitalize_first_same (parts : list pystr) :
  Forall (fun p => forallb is_ascii p = true) parts →
  Forall2 same_letters parts (capitalize_first parts).
Proof.
  induction 1 as [|p parts Hp Hparts IH]; simpl; [constructor |].
  destruct (capitalize_piece p) as [p' |] eqn:Hcap.
  - constructor; [by apply capitalize_piece_same |].
    clear IH. induction Hparts; by constructor.
  - by constructor.
Qed.

Lemma capitalize_each_same (parts : list pystr) :
  Forall (fun p => forallb is_ascii p = true) parts →
  Forall2 same_letters parts
          (map (fun p => default p (capitalize_piece p)) parts).
Proof.
  induction 1 as [|p parts Hp Hparts IH]; simpl; [constructor |].
  constructor; [| done].
  destruct (capitalize_piece p) as [p' |] eqn:Hcap; simpl; [| done].
  by apply capitalize_piece_same.
Qed.

Lemma capitalize_each_pieces (parts : list pystr) :
  pieces re_nonword parts →
  Forall (fun p => forallb is_ascii p = true) parts →
  pieces re_nonword (map (fun p => default p (capitalize_piece p)) parts) ∧
  (starts_ok parts →
   starts_ok (map (fun p => default p (capitalize_piece p)) parts)).
Proof.
  assert (∀ w, forallb is_ascii w = true →
               Forall (fun c => re_nonword c = false) w →
               Forall (fun c => re_nonword c = false)
                      (default w (capitalize_piece w)) ∧
               (w ≠ [] → default w (capitalize_piece w) ≠ [])) as Hword.
  { intros w Ha Hw. destruct (capitalize_piece w) as [w' |] eqn:Hcap;
      simpl; [| done].
    destruct (capitalize_piece_word w w' Ha Hw Hcap). done. }
  induction 1 as [w Hw | w d rest Hw Hne Hd Hrest IH Hok]; intros Hasc; simpl.
  - apply Forall_cons in Hasc as [Hwa _].
    destruct (Hword w Hwa Hw) as [Hw' _]. by split; [constructor |].
  - apply Forall_cons in Hasc as [Hwa [Hda Hra]%Forall_cons].
    destruct (Hword w Hwa Hw) as [Hw' Hne'].
    rewrite (capitalize_piece_sep d) by done. simpl.
    destruct (IH Hra) as [IH1 IH2].
    split; [constructor; auto | done].
Qed.

End CaseOnly.

(** X14. On an ASCII candidate [_reapply_case] changes the case of
    letters only: the result is ASCII, as long as the candidate, and equal
    to it once both are lower-cased. *)
Theorem reapply_case_changes_case_only `{U : PyUnicode}
    (HF : AsciiFaithful U) (s ref : pystr) :
  forallb is_ascii s = true →
  length (_reapply_case s ref) = length s ∧
  map ascii_lower (_reapply_case s ref) = map ascii_lower s ∧
  forallb is_ascii (_reapply_case s ref) = true.
Proof.
  intros Hs.
  assert (same_letters s (_reapply_case s ref)) as [Hl Ha].
  { unfold _reapply_case. destruct (str_isupper ref); [| destruct (str_islower ref)].
    - rewrite upper_ascii by done. split.
      + rewrite map_map. apply map_ext_in. intros c Hc. apply ascii_lower_upper.
        rewrite forallb_forall in Hs. auto.
      + apply forallb_map_ascii; [| done]. intros c Hc.
        apply ascii_case_facts, Hc.
    - rewrite lower_ascii by done. split.
      + apply map_idem_ascii; [| done]. intros c Hc. apply ascii_case_facts, Hc.
      + apply forallb_map_ascii; [| done]. intros c Hc.
        apply ascii_case_facts, Hc.
    - rewrite <- (split_runs_join re_nonword s) at 1.
      apply same_letters_concat, capitalize_first_same.
      by apply split_runs_ascii. }
  split_and!; [| done | done].
  apply (f_equal length) in Hl. by rewrite !length_map in Hl.
Qed.

Lemma reapply_case_changes_case_only_witness :
  length (_reapply_case (py "mc-donald") (py "McDonald"))
  = length (py "mc-donald") ∧
  map ascii_lower (_reapply_case (py "mc-donald") (py "McDonald"))
  = map ascii_lower (py "mc-donald") ∧
  forallb is_ascii (_reapply_case (py "mc-donald") (py "McDonald")) = true.
Proof.
  apply (reapply_case_changes_case_only latin1_faithful (py "mc-donald")
           (py "McDonald")).
  reflexivity.
Defined.

(** X15. On an ASCII string [_cap_first_tokens] changes the case of
    letters only (same length, equal once lower-cased), and applying it
    twice is the same as applying it once. *)
Theorem cap_first_tokens_ascii `{U : PyUnicode} (HF : AsciiFaithful U)
    (s : pystr) :
  forallb is_ascii s = true →
  length (_cap_first_tokens s) = length s ∧
  map ascii_lower (_cap_first_tokens s) = map ascii_lower s ∧
  _cap_first_tokens (_cap_first_tokens s) = _cap_first_tokens s.
Proof.
  intros Hs. pose proof (split_runs_ascii re_nonword s Hs) as Hasc.
  assert (same_letters s (_cap_first_tokens s)) as [Hl Ha].
  { unfold _cap_first_tokens. rewrite <- (split_runs_join re_nonword s) at 1.
    by apply same_letters_concat, capitalize_each_same. }
  split_and!; [| done |].
  - apply (f_equal length) in Hl. by rewrite !length_map in Hl.
  - unfold _cap_first_tokens.
    destruct (capitalize_each_pieces _ (split_runs_pieces re_nonword s) Hasc)
      as [Hpieces _].
    rewrite split_runs_concat by done. f_equal.
    rewrite map_map.
    apply map_ext_in. intros p Hp.
    assert (forallb is_ascii p = true) as Hpa.
    { rewrite Forall_forall in Hasc. by apply Hasc, list_elem_of_In. }
    destruct (capitalize_piece p) as [p' |] eqn:Hcap; simpl.
    + by destruct (capitalize_piece_fixed p p' Hpa Hcap) as [-> _].
    + by rewrite Hcap.
Qed.

Lemma cap_first_tokens_ascii_witness :
  length (_cap_first_tokens (py "jean-pierre_2 x")) = length (py "jean-pierre_2 x") ∧
  map ascii_lower (_cap_first_tokens (py "jean-pierre_2 x"))
  = map ascii_lower (py "jean-pierre_2 x") ∧
  _cap_first_tokens (_cap_first_tokens (py "jean-pierre_2 x"))
  = _cap_first_tokens (py "jean-pierre_2 x").
Proof.
  apply (cap_first_tokens_ascii latin1_faithful (py "jean-pierre_2 x")).
  reflexivity.
Defined.

(** X16. A string without a letter is left as it is by
    [_cap_first_tokens], and by [_reapply_case] when the reference is
    neither upper-case nor lower-case. *)
Theorem capitalization_needs_a_letter `{U : PyUnicode} (s ref : pystr) :
  (∀ c, c ∈ s → uni_isalpha c = false) →
  _cap_first_tokens s = s ∧
  (str_isupper ref = false → str_islower ref = false →
   _reapply_case s ref = s).
Proof.
  intros Hs.
  assert (Forall (fun p => capitalize_piece p = None)
                 (split_runs re_nonword s)) as Hnone.
  { apply Forall_forall. intros p Hp. destruct p as [|c p']; [done |].
    simpl. rewrite Hs; [done |].
    rewrite <- (split_runs_join re_nonword s).
    apply list_elem_of_In, in_concat. exists (c :: p').
    split; [by apply list_elem_of_In | by left]. }
  split.
  - unfold _cap_first_tokens. rewrite <- (split_runs_join re_nonword s) at 2.
    f_equal. induction Hnone as [|p ps Hp _ IH]; simpl; [done |].
    by rewrite Hp, IH.
  - intros Hu Hl. unfold _reapply_case. rewrite Hu, Hl.
    rewrite <- (split_runs_join re_nonword s) at 2.
    f_equal. induction Hnone as [|p ps Hp _ IH]; simpl; [done |].
    by rewrite Hp, IH.
Qed.

Lemma capitalization_needs_a_letter_witness :
  _cap_first_tokens (py "12-05_2001") = py "12-05_2001" ∧
  (str_isupper (py "aB") = false → str_islower (py "aB") = false →
   _reapply_case (py "12-05_2001") (py "aB") = py "12-05_2001").
Proof.
  apply (capitalization_needs_a_letter (py "12-05_2001") (py "aB")).
  intros c Hc. apply (bool_decide_eq_true_1 _).
  revert c Hc. apply Forall_forall. vm_compute. repeat constructor.
Defined.

(** ** The rule builders *)

Lemma str_leb_total (a b : pystr) : str_leb a b = true ∨ str_leb b a = true.
Proof.
  revert b. induction a as [|x a IH]; intros [|y b]; simpl; auto.
  destruct (N.ltb_spec x y), (N.ltb_spec y x); auto; lia.
Qed.

Lemma str_leb_trans (a b c : pystr) :
  str_leb a b = true → str_leb b c = true → str_leb a c = true.
Proof.
  revert b c. induction a as [|x a IH]; intros [|y b] [|z c]; simpl; auto;
    try done.
  destruct (N.ltb_spec x y), (N.ltb_spec y x), (N.ltb_spec y z),
    (N.ltb_spec z y), (N.ltb_spec x z), (N.ltb_spec z x);
    try done; try lia; eauto.
Qed.

Lemma str_leb_lt (a b : pystr) : str_leb a b = true → a ≠ b → str_lt a b.
Proof.
  revert b. induction a as [|x a IH]; intros [|y b]; simpl; intros Hle Hne;
    try done; [constructor |].
  destruct (N.ltb_spec x y); [by constructor |].
  destruct (N.ltb_spec y x); [done |].
  assert (x = y) as -> by lia. apply str_lt_tail, IH; [done | congruence].
Qed.

Lemma sorted_strings_strict (rules : gset pystr) :
  StronglySorted str_lt (sorted_strings rules).
Proof.
  unfold sorted_strings.
  assert (NoDup (merge_sort str_le (elements rules))) as Hnd.
  { rewrite merge_sort_Permutation. apply NoDup_elements. }
  assert (StronglySorted str_le (merge_sort str_le (elements rules))) as Hs.
  { apply StronglySorted_merge_sort.
    - intros a b c Hab Hbc. apply Is_true_true.
      eapply str_leb_trans; by apply Is_true_true.
    - intros a b. unfold str_le. rewrite !Is_true_true. apply str_leb_total. }
  induction Hs as [|a l Hs IH Hall]; constructor.
  - apply IH. by apply NoDup_cons in Hnd as [_ ?].
  - apply NoDup_cons in Hnd as [Ha _].
    apply Forall_forall. intros y Hy. apply str_leb_lt.
    + apply Is_true_true. eapply Forall_forall in Hall; done.
    + by intros ->.
Qed.

Section RuleSets.
Context {U : PyUnicode}.

Lemma add_leet_rules_elem (rules : gset pystr) (x : pystr) :
  x ∈ add_leet_rules rules ↔
  x ∈ rules ∨
  ∃ a b, (a, b) ∈ leet_pairs ∧
         (x = py "s" ++ a ++ b ∨ x = py "s" ++ str_upper a ++ b).
Proof.
  unfold add_leet_rules. generalize leet_pairs. intros l. revert rules.
  induction l as [|[a b] l IH]; intros rules; simpl.
  - split; [auto | intros [H | (a & b & Hin%elem_of_nil & _)]; done].
  - rewrite IH, !elem_of_union, !elem_of_singleton. split.
    + intros [[Hx | [Hx | Hx]] | (a' & b' & Hin & Hx)].
      * right. exists a, b. split; [left | by right].
      * right. exists a, b. split; [left | by left].
      * by left.
      * right. exists a', b'. split; [by right | done].
    + intros [Hx | (a' & b' & [[= -> ->] | Hin]%elem_of_cons & Hx)].
      * auto.
      * left. destruct Hx; auto.
      * right. by exists a', b'.
Qed.

Lemma cond_leet_rules_elem (b : bool) (rules : gset pystr) (x : pystr) :
  x ∈ (if b then add_leet_rules rules else rules) ↔
  x ∈ rules ∨
  (b = true ∧ ∃ a b, (a, b) ∈ leet_pairs ∧
     (x = py "s" ++ a ++ b ∨ x = py "s" ++ str_upper a ++ b)).
Proof.
  destruct b; [rewrite add_leet_rules_elem |]; intuition; try done.
Qed.

Lemma hashcat_rules_elem_noop (engine : option Engine) :
  py ":" ∈ _build_hashcat_rules engine.
Proof.
  unfold _build_hashcat_rules. cbv zeta.
  generalize (current_options engine). intros opt.
  rewrite sorted_strings_elem,
    (add_rules_elem (fun ch => py "$" ++ [ch])), cond_leet_rules_elem.
  left. left.
  destruct (cap_last opt).
  - rewrite (add_rules_elem (fun n => py "lT" ++ decimal (Z.to_N n))). left.
    rewrite elem_of_if_add, elem_of_singleton. auto.
  - rewrite elem_of_if_add, elem_of_singleton. auto.
Qed.

Lemma john_rules_elem_noop (engine : option Engine) :
  [] ∈ _build_john_rules engine.
Proof.
  unfold _build_john_rules. cbv zeta.
  generalize (current_options engine). intros opt.
  rewrite sorted_strings_elem,
    (add_rules_elem (fun ch => py "A" ++ [ch])), cond_leet_rules_elem.
  left. left. rewrite elem_of_if_add, elem_of_singleton. auto.
Qed.

Lemma john_rules_head (engine : option Engine) :
  head (_build_john_rules engine) = Some [].
Proof.
  pose proof (john_rules_elem_noop engine) as Hin.
  pose proof (sorted_strings_strict) as Hs.
  unfold _build_john_rules in *. cbv zeta in *.
  match goal with
  | H : [] ∈ sorted_strings ?X |- _ => specialize (Hs X); revert H Hs;
      generalize (sorted_strings X)
  end.
  intros l Hin Hs. destruct l as [|r l]; [by apply elem_of_nil in Hin |].
  simpl. f_equal. apply elem_of_cons in Hin as [<- | Hin]; [done |].
  apply StronglySorted_inv in Hs as [_ Hall].
  eapply Forall_forall in Hall; [| done]. inversion Hall.
Qed.

Lemma hashcat_rules_elem (engine : option Engine) (x : pystr) :
  x ∈ _build_hashcat_rules engine ↔
  x = py ":" ∨
  (cap_first (current_options engine) = true ∧ x = py "c") ∨
  (cap_last (current_options engine) = true ∧
   ∃ n, (0 ≤ n < Z.max 1 (max_len (current_options engine)))%Z ∧
        x = py "lT" ++ decimal (Z.to_N n)) ∨
  (add_leet (current_options engine) = true ∧
   ∃ a b, (a, b) ∈ leet_pairs ∧
          (x = py "s" ++ a ++ b ∨ x = py "s" ++ str_upper a ++ b)) ∨
  (∃ ch, ch ∈ add_prefix_suffix (current_options engine) ∧
         x = py "$" ++ [ch]).
Proof.
  unfold _build_hashcat_rules. cbv zeta.
  generalize (current_options engine). intros opt.
  rewrite sorted_strings_elem,
    (add_rules_elem (fun ch => py "$" ++ [ch])), cond_leet_rules_elem.
  assert (∀ X : gset pystr,
            x ∈ (if cap_last opt
                 then foldl (fun rules n =>
                               {[py "lT" ++ decimal (Z.to_N n)]} ∪ rules)
                            X (seqZ 0 (Z.max 1 (max_len opt)))
                 else X) ↔
            x ∈ X ∨ (cap_last opt = true ∧
                     ∃ n, (0 ≤ n < Z.max 1 (max_len opt))%Z ∧
                          x = py "lT" ++ decimal (Z.to_N n))) as Hlast.
  { intros X. destruct (cap_last opt).
    - rewrite (add_rules_elem (fun n => py "lT" ++ decimal (Z.to_N n))).
      apply or_iff_compat_l. split.
      + intros (n & Hn%elem_of_seqZ & ->). split; [done |]. exists n.
        split; [lia | done].
      + intros (_ & n & Hn & ->). exists n. split; [| done].
        apply elem_of_seqZ. lia.
    - intuition; done. }
  rewrite Hlast, elem_of_if_add, elem_of_singleton. tauto.
Qed.

Lemma john_rules_elem (engine : option Engine) (x : pystr) :
  x ∈ _build_john_rules engine ↔
  x = [] ∨
  (cap_first (current_options engine) = true ∧ x = py "c") ∨
  (add_leet (current_options engine) = true ∧
   ∃ a b, (a, b) ∈ leet_pairs ∧
          (x = py "s" ++ a ++ b ∨ x = py "s" ++ str_upper a ++ b)) ∨
  (∃ ch, ch ∈ add_prefix_suffix (current_options engine) ∧
         x = py "A" ++ [ch]).
Proof.
  unfold _build_john_rules. cbv zeta.
  generalize (current_options engine). intros opt.
  rewrite sorted_strings_elem,
    (add_rules_elem (fun ch => py "A" ++ [ch])), cond_leet_rules_elem.
  rewrite elem_of_if_add, elem_of_singleton. tauto.
Qed.

(** X17. The Hashcat rules are exactly: the no-op [:]; [c] with
    [cap_first]; [lTn] for every position [n] below [max 1 max_len] with
    [cap_last]; the twelve substitutions of the leet pairs with
    [add_leet]; and [$ch] for every decoration character [ch]. *)
Theorem hashcat_rules_content (engine : option Engine) (x : pystr) :
  x ∈ _build_hashcat_rules engine ↔
  x = py ":" ∨
  (cap_first (current_options engine) = true ∧ x = py "c") ∨
  (cap_last (current_options engine) = true ∧
   ∃ n, (0 ≤ n < Z.max 1 (max_len (current_options engine)))%Z ∧
        x = py "lT" ++ decimal (Z.to_N n)) ∨
  (add_leet (current_options engine) = true ∧
   ∃ a b, (a, b) ∈ leet_pairs ∧
          (x = py "s" ++ a ++ b ∨ x = py "s" ++ str_upper a ++ b)) ∨
  (∃ ch, ch ∈ add_prefix_suffix (current_options engine) ∧
         x = py "$" ++ [ch]).
Proof. apply hashcat_rules_elem. Qed.

(** X18. The John rules are exactly: the empty no-op; [c] with
    [cap_first]; the twelve substitutions of the leet pairs with
    [add_leet]; and [Ach] for every decoration character [ch]. *)
Theorem john_rules_content (engine : option Engine) (x : pystr) :
  x ∈ _build_john_rules engine ↔
  x = [] ∨
  (cap_first (current_options engine) = true ∧ x = py "c") ∨
  (add_leet (current_options engine) = true ∧
   ∃ a b, (a, b) ∈ leet_pairs ∧
          (x = py "s" ++ a ++ b ∨ x = py "s" ++ str_upper a ++ b)) ∨
  (∃ ch, ch ∈ add_prefix_suffix (current_options engine) ∧
         x = py "A" ++ [ch]).
Proof. apply john_rules_elem. Qed.

(** X20. Without [cap_last] the John rules are the Hashcat rules
    respelled: the no-op [:] becomes the empty rule, [$ch] becomes [Ach]
    and the other tokens are the same. *)
Theorem john_rules_respell_hashcat (engine : option Engine) (y : pystr) :
  cap_last (current_options engine) = false →
  y ∈ _build_john_rules engine ↔
  ∃ x, x ∈ _build_hashcat_rules engine ∧ y = john_spelling x.
Proof.
  intros Hlast. rewrite john_rules_elem.
  setoid_rewrite hashcat_rules_elem. rewrite Hlast.
  assert (∀ a b, john_spelling (py "s" ++ a ++ b) = py "s" ++ a ++ b) as Hs.
  { intros a b. change (py "s") with [115]. simpl. unfold john_spelling.
    by rewrite bool_decide_eq_false_2 by (change (py ":") with [58]; congruence). }
  assert (∀ ch, john_spelling (py "$" ++ [ch]) = py "A" ++ [ch]) as Hd.
  { intros ch. unfold john_spelling.
    by rewrite bool_decide_eq_false_2 by (vm_compute; congruence). }
  split.
  - intros [-> | [[Hc ->] | [[Hl (a & b & Hin & Hx)] | (ch & Hch & ->)]]].
    + exists (py ":"). split; [by left | done].
    + exists (py "c"). split; [right; by left | done].
    + destruct Hx as [-> | ->]; eexists; (split; [| by rewrite Hs]);
        right; right; right; left; split; [done | | done |]; exists a, b; auto.
    + exists (py "$" ++ [ch]). split; [| by rewrite Hd].
      do 4 right. by exists ch.
  - intros (x & Hx & ->).
    destruct Hx as [-> | [[Hc ->] | [[? _] | [[Hl (a & b & Hin & Hx)] |
                        (ch & Hch & ->)]]]]; [by left | right; by left | done | |].
    + right. right. left. split; [done |]. exists a, b. split; [done |].
      destruct Hx as [-> | ->]; rewrite Hs; auto.
    + do 3 right. exists ch. by rewrite Hd.
Qed.

(** X21. In either style the rule file gets its rules written (the
    list of rules is never empty), with a line [:] among them and no empty
    line: the empty no-op of John is written as [:]. *)
Theorem rule_file_has_noop_line (style : rule_style)
    (engine : option Engine) :
  ∃ lines, rule_file_lines style engine = Some lines ∧
    py ":" ∈ lines ∧ [] ∉ lines.
Proof.
  assert (∀ rules : list pystr,
            (py ":" ∈ rules ∨ [] ∈ rules) →
            ∃ lines, match rules with
                     | [] => None
                     | _ => Some (map rule_line rules)
                     end = Some lines ∧ py ":" ∈ lines ∧ [] ∉ lines) as Hgen.
  { intros rules Hin. exists (map rule_line rules). split_and!.
    - destruct rules; [| done].
      destruct Hin as [Hin | Hin]; by apply elem_of_nil in Hin.
    - apply list_elem_of_In, in_map_iff.
      destruct Hin as [Hin | Hin]; eexists; (split; [| by apply list_elem_of_In]);
        done.
    - intros (r & Hr & _)%list_elem_of_In%in_map_iff.
      unfold rule_line in Hr. by destruct r. }
  unfold rule_file_lines. destruct style; apply Hgen.
  - left. apply hashcat_rules_elem_noop.
  - right. apply john_rules_elem_noop.
Qed.

(** X19. Both rule lists are strictly increasing in the order of
    [sorted], so neither holds a rule twice; the Hashcat list holds the
    no-op [:], and the John list starts with its empty no-op. *)
Theorem rule_lists_sorted_with_noop (engine : option Engine) :
  StronglySorted str_lt (_build_hashcat_rules engine) ∧
  StronglySorted str_lt (_build_john_rules engine) ∧
  py ":" ∈ _build_hashcat_rules engine ∧
  head (_build_john_rules engine) = Some [].
Proof.
  split_and!.
  - apply sorted_strings_strict.
  - apply sorted_strings_strict.
  - apply hashcat_rules_elem_noop.
  - apply john_rules_head.
Qed.

End RuleSets.

(** ** The mask file *)

Lemma count_masks_loop (ws : list pystr) (masks : gmap pystr nat)
    (m : pystr) :
  foldl (fun masks w =>
           let m := word_mask w in
           <[m := (default 0 (masks !! m) + 1)%nat]> masks) masks ws !! m
  = if decide (occurrences m ws = 0%nat) then masks !! m
    else Some (default 0 (masks !! m) + occurrences m ws)%nat.
Proof.
  revert masks. induction ws as [|w ws IH]; intros masks; [done |].
  cbn [foldl]. rewrite IH. unfold occurrences. cbn [List.filter].
  destruct (decide (word_mask w = m)) as [<- | Hne].
  - rewrite bool_decide_eq_true_2 by done. cbn [length].
    rewrite lookup_insert_eq. simpl.
    repeat case_decide; try lia; f_equal; lia.
  - rewrite bool_decide_eq_false_2 by done.
    rewrite lookup_insert_ne by done. done.
Qed.

Lemma count_masks_lookup (ws : list pystr) (m : pystr) :
  count_masks ws !! m
  = if decide (occurrences m ws = 0%nat) then None
    else Some (occurrences m ws).
Proof. unfold count_masks. rewrite count_masks_loop, lookup_empty. done. Qed.

Lemma occurrences_pos (m : pystr) (ws : list pystr) :
  (0 < occurrences m ws)%nat ↔ ∃ w, w ∈ ws ∧ word_mask w = m.
Proof.
  unfold occurrences. induction ws as [|w ws IH]; simpl.
  - split; [lia | intros (w & Hw%elem_of_nil & _); done].
  - destruct (decide (word_mask w = m)) as [Hm | Hm].
    + rewrite bool_decide_eq_true_2 by done. simpl.
      split; [intros _; exists w; split; [left | done] | lia].
    + rewrite bool_decide_eq_false_2 by done. rewrite IH.
      split; intros (w' & Hw' & Hm').
      * exists w'. split; [by right | done].
      * exists w'. apply elem_of_cons in Hw' as [-> | Hw']; [done | auto].
Qed.

(** X22. The [masks] dictionary of [_export_masks] maps a mask to the
    number of words that have it, and holds no mask that no word has. *)
Theorem count_masks_counts (ws : list pystr) (m : pystr) (k : nat) :
  count_masks ws !! m = Some k ↔
  (0 < k)%nat ∧ k = occurrences m ws.
Proof.
  rewrite count_masks_lookup. case_decide as Hz.
  - split; [done | lia].
  - split; [intros [= <-]; lia | intros [_ ->]; done].
Qed.

Lemma mask_rank_le_trans : Transitive mask_rank_le.
Proof.
  intros [m1 k1] [m2 k2] [m3 k3]. unfold mask_rank_le. simpl.
  rewrite !Is_true_true, !orb_true_iff, !andb_true_iff,
    !Nat.ltb_lt, !Nat.eqb_eq.
  intros [H1 | [H1 L1]] [H2 | [H2 L2]]; try (left; lia).
  right. split; [lia |]. by eapply str_leb_trans.
Qed.

Lemma mask_rank_le_total : Total mask_rank_le.
Proof.
  intros [m1 k1] [m2 k2]. unfold mask_rank_le. simpl.
  rewrite !Is_true_true, !orb_true_iff, !andb_true_iff,
    !Nat.ltb_lt, !Nat.eqb_eq.
  destruct (lt_eq_lt_dec k1 k2) as [[? | ->] | ?]; [auto.. | | auto].
  destruct (str_leb_total m1 m2); auto.
Qed.

Lemma ordered_masks_elem (ws : list pystr) (m : pystr) (k : nat) :
  (m, k) ∈ ordered_masks ws ↔ (0 < k)%nat ∧ k = occurrences m ws.
Proof.
  unfold ordered_masks.
  rewrite merge_sort_Permutation, elem_of_map_to_list.
  rewrite count_masks_lookup. case_decide as Hz.
  - split; [done | lia].
  - split; [intros [= <-]; lia | intros [_ ->]; done].
Qed.

Lemma ordered_masks_NoDup (ws : list pystr) :
  NoDup (map fst (ordered_masks ws)).
Proof.
  unfold ordered_masks. rewrite merge_sort_Permutation.
  apply NoDup_fst_map_to_list.
Qed.

Lemma ordered_masks_ranked (ws : list pystr) :
  StronglySorted
    (fun m1 m2 =>
       (occurrences m2 ws < occurrences m1 ws)%nat ∨
       (occurrences m1 ws = occurrences m2 ws ∧ str_lt m1 m2))
    (map fst (ordered_masks ws)).
Proof.
  pose proof (ordered_masks_NoDup ws) as Hnd.
  assert (∀ p, p ∈ ordered_masks ws → p.2 = occurrences p.1 ws) as Hocc.
  { intros [m k] Hp. by apply ordered_masks_elem in Hp as [_ ->]. }
  assert (StronglySorted mask_rank_le (ordered_masks ws)) as Hs.
  { apply StronglySorted_merge_sort;
      [apply mask_rank_le_trans | apply mask_rank_le_total]. }
  revert Hnd Hocc Hs. generalize (ordered_masks ws). intros l.
  induction l as [|[m k] l IH]; intros Hnd Hocc Hs; simpl; [constructor |].
  apply NoDup_cons in Hnd as [Hm Hnd].
  apply StronglySorted_inv in Hs as [Hs Hall].
  constructor.
  - apply IH; [done | | done]. intros p Hp. apply Hocc. by right.
  - apply Forall_forall. intros m' Hm'.
    apply list_elem_of_In, in_map_iff in Hm' as ([m2 k2] & <- & Hin).
    apply list_elem_of_In in Hin.
    eapply Forall_forall in Hall; [| done].
    pose proof (Hocc (m, k) ltac:(left)) as Hk.
    pose proof (Hocc (m2, k2) ltac:(by right)) as Hk2.
    simpl in *. subst k k2.
    unfold mask_rank_le in Hall. simpl in Hall.
    rewrite Is_true_true, orb_true_iff, andb_true_iff,
      Nat.ltb_lt, Nat.eqb_eq in Hall.
    destruct Hall as [Hlt | [Heq Hle]]; [by left |].
    right. split; [done |]. apply str_leb_lt; [done |].
    intros ->. apply Hm. apply list_elem_of_In, in_map_iff.
    exists (m2, occurrences m2 ws). split; [done | by apply list_elem_of_In].
Qed.

(** X23. [_export_masks] writes nothing for an empty word list;
    otherwise it writes each mask of a word once, the more frequent mask
    before the less frequent one and, among masks as frequent, in the order
    of [sorted]. *)
Theorem mask_file_ranked (ws : list pystr) :
  (mask_file_lines ws = None ↔ ws = []) ∧
  ∀ lines, mask_file_lines ws = Some lines →
    NoDup lines ∧
    (∀ m, m ∈ lines ↔ ∃ w, w ∈ ws ∧ word_mask w = m) ∧
    StronglySorted
      (fun m1 m2 =>
         (occurrences m2 ws < occurrences m1 ws)%nat ∨
         (occurrences m1 ws = occurrences m2 ws ∧ str_lt m1 m2))
      lines.
Proof.
  split; [by destruct ws |]. intros lines Hlines.
  assert (lines = map fst (ordered_masks ws)) as ->.
  { destruct ws; [done |]. simpl in Hlines. congruence. }
  split_and!.
  - apply ordered_masks_NoDup.
  - intros m. rewrite <- occurrences_pos. split.
    + intros ([m' k] & <- & Hin%list_elem_of_In)%list_elem_of_In%in_map_iff.
      apply ordered_masks_elem in Hin as [Hk ->]. done.
    + intros Hpos. apply list_elem_of_In, in_map_iff.
      exists (m, occurrences m ws). split; [done |].
      apply list_elem_of_In, ordered_masks_elem. done.
  - apply ordered_masks_ranked.
Qed.

(** Three words, two of one shape: the shared mask comes first. *)
Example mask_file_sample :
  mask_file_lines [py "ab"; py "A1"; py "cd"] = Some [py "?l?l"; py "?u?d"].
Proof. vm_compute. reflexivity. Qed.

(** ** The sibling index *)

Section Siblings.
Context {U : PyUnicode}.

Lemma add_members_lookup (allv : gset pystr) (l : list pystr)
    (sib : gmap pystr (gset pystr)) (v : pystr) :
  foldl (fun sib v => <[v := default ∅ (sib !! v) ∪ (allv ∖ {[v]})]> sib)
        sib l !! v
  = if decide (v ∈ l)
    then Some (default ∅ (sib !! v) ∪ (allv ∖ {[v]}))
    else sib !! v.
Proof.
  revert sib. induction l as [|u l IH]; intros sib; cbn [foldl].
  - case_decide as H; [by apply elem_of_nil in H | done].
  - rewrite IH. destruct (decide (v = u)) as [-> | Hne].
    + rewrite lookup_insert_eq. cbn [default].
      destruct (decide (u ∈ u :: l)) as [_ | Hn]; [| exfalso; apply Hn; left].
      case_decide; [| done]. f_equal.
      unfold id. apply set_eq. intros z. rewrite !elem_of_union. tauto.
    + rewrite lookup_insert_ne by done.
      destruct (decide (v ∈ l)) as [Hin | Hin];
        destruct (decide (v ∈ u :: l)) as [Hin' | Hin']; try done.
      * exfalso. apply Hin'. by right.
      * apply elem_of_cons in Hin' as [? | ?]; done.
Qed.

Lemma add_group_lookup (sib : gmap pystr (gset pystr))
    (entry : pystr * list pystr) (v : pystr) :
  add_group sib entry !! v
  = if decide (v ∈ group_members entry)
    then Some (default ∅ (sib !! v) ∪ (group_members entry ∖ {[v]}))
    else sib !! v.
Proof.
  unfold add_group. cbv zeta. fold (group_members entry).
  rewrite add_members_lookup.
  destruct (decide (v ∈ group_members entry)) as [Hin | Hin].
  - rewrite decide_True; [done | by apply elem_of_elements].
  - rewrite decide_False; [done | by rewrite elem_of_elements].
Qed.

Lemma add_group_mutual (sib : gmap pystr (gset pystr))
    (entry : pystr * list pystr) :
  mutual sib → mutual (add_group sib entry).
Proof.
  intros Hsib v s. rewrite add_group_lookup.
  assert (∀ x, x ∈ default ∅ (sib !! x) → False) as Hself.
  { intros x. destruct (sib !! x) as [sx |] eqn:Hx; simpl.
    - by apply (Hsib x sx Hx).
    - apply not_elem_of_empty. }
  assert (∀ x y, y ∈ default ∅ (sib !! x) → x ∈ default ∅ (sib !! y))
    as Hsym.
  { intros x y. destruct (sib !! x) as [sx |] eqn:Hx; simpl.
    - intros Hy. destruct (Hsib x sx Hx) as [_ Hm].
      destruct (Hm y Hy) as (sy & -> & Hin). done.
    - by intros ?%not_elem_of_empty. }
  assert (∀ x y, y ∈ default ∅ (sib !! x) ∨
                 (x ∈ group_members entry ∧ y ∈ group_members entry ∧ y ≠ x) →
                 ∃ s', add_group sib entry !! y = Some s' ∧ x ∈ s') as Hnew.
  { intros x y Hxy. rewrite add_group_lookup.
    destruct (decide (y ∈ group_members entry)) as [Hy | Hy].
    - eexists; split; [done |]. rewrite elem_of_union, elem_of_difference,
        elem_of_singleton.
      destruct Hxy as [Hxy | (Hx & _ & Hne)]; [left; by apply Hsym |].
      right. split; [done | congruence].
    - destruct Hxy as [Hxy | (_ & ? & _)]; [| done].
      apply Hsym in Hxy. destruct (sib !! y) as [sy |]; simpl in *;
        [by eexists | by apply not_elem_of_empty in Hxy]. }
  case_decide as Hv.
  - intros [= <-]. split.
    + rewrite elem_of_union, elem_of_difference, elem_of_singleton.
      intros [H | [_ H]]; [by apply (Hself v) | done].
    + intros u. rewrite elem_of_union, elem_of_difference, elem_of_singleton.
      intros [Hu | [Hu Hne]]; apply Hnew; auto.
  - intros Hs. destruct (Hsib v s Hs) as [Hirr Hm]. split; [done |].
    intros u Hu. apply Hnew. left. by rewrite Hs.
Qed.

Lemma build_siblings_mutual (vm : gmap pystr (list pystr)) :
  mutual (build_siblings vm).
Proof.
  unfold build_siblings. generalize (map_to_list vm). intros l.
  assert (mutual ∅) as Hinit by (intros v s Hv; by rewrite lookup_empty in Hv).
  revert Hinit. generalize (∅ : gmap pystr (gset pystr)).
  induction l as [|entry l IH]; intros sib Hsib; simpl; [done |].
  by apply IH, add_group_mutual.
Qed.

Lemma add_group_grows (sib : gmap pystr (gset pystr))
    (entry : pystr * list pystr) (v u : pystr) :
  u ∈ default ∅ (sib !! v) → u ∈ default ∅ (add_group sib entry !! v).
Proof.
  rewrite add_group_lookup. case_decide; [| done]. simpl.
  rewrite elem_of_union. auto.
Qed.

Lemma build_siblings_group (vm : gmap pystr (list pystr))
    (entry : pystr * list pystr) (v u : pystr) :
  entry ∈ map_to_list vm →
  v ∈ group_members entry → u ∈ group_members entry → u ≠ v →
  u ∈ default ∅ (build_siblings vm !! v).
Proof.
  unfold build_siblings. generalize (map_to_list vm). intros l.
  generalize (∅ : gmap pystr (gset pystr)).
  induction l as [|e0 l IH]; intros sib Hin Hv Hu Hne;
    [by apply elem_of_nil in Hin |].
  simpl. apply elem_of_cons in Hin as [<- | Hin]; [| by apply IH].
  assert (u ∈ default ∅ (add_group sib entry !! v)) as Hnow.
  { rewrite add_group_lookup, decide_True by done. simpl.
    rewrite elem_of_union, elem_of_difference, elem_of_singleton. auto. }
  revert Hnow. generalize (add_group sib entry). clear.
  induction l as [|e1 l IH]; intros sib Hnow; simpl; [done |].
  by apply IH, add_group_grows.
Qed.

End Siblings.

(** X24. In the sibling index nobody is their own sibling and siblings
    are mutual: if [u] is a sibling of [v], then [u] is not [v] and [v] is
    a sibling of [u]. *)
Theorem siblings_are_mutual `{U : PyUnicode} (vm : gmap pystr (list pystr))
    (v u : pystr) (s : gset pystr) :
  build_siblings vm !! v = Some s →
  u ∈ s →
  u ≠ v ∧ ∃ s', build_siblings vm !! u = Some s' ∧ v ∈ s'.
Proof.
  intros Hv Hu. destruct (build_siblings_mutual vm v s Hv) as [Hirr Hm].
  split; [by intros -> | by apply Hm].
Qed.

(** X25. Every alias of an entry of the variants map is, lower-cased,
    a sibling of the lower-cased base name of that entry, unless the two
    are the same string. *)
Theorem aliases_become_siblings `{U : PyUnicode}
    (vm : gmap pystr (list pystr)) (base a : pystr) (alts : list pystr) :
  vm !! base = Some alts →
  a ∈ alts →
  str_lower a ≠ str_lower base →
  ∃ s, build_siblings vm !! str_lower base = Some s ∧ str_lower a ∈ s.
Proof.
  intros Hvm Ha Hne.
  assert (str_lower a ∈ default ∅ (build_siblings vm !! str_lower base))
    as Hin.
  { apply (build_siblings_group vm (base, alts)).
    - by apply elem_of_map_to_list.
    - unfold group_members. simpl. apply elem_of_union_l, elem_of_singleton.
      done.
    - unfold group_members. simpl. apply elem_of_union_r.
      apply elem_of_list_to_set, list_elem_of_In, in_map,
        list_elem_of_In. done.
    - done. }
  destruct (build_siblings vm !! str_lower base) as [s |]; simpl in Hin;
    [by exists s | by apply not_elem_of_empty in Hin].
Qed.

Lemma siblings_are_mutual_witness :
  py "will" ≠ py "bill" ∧
  ∃ s', build_siblings sample_variants !! py "will" = Some s' ∧
        py "bill" ∈ s'.
Proof.
  apply (siblings_are_mutual sample_variants (py "bill") (py "will")
           {[py "will"; py "billy"]}).
  - vm_compute. reflexivity.
  - apply elem_of_union_l, elem_of_singleton. reflexivity.
Defined.

Lemma aliases_become_siblings_witness :
  ∃ s, build_siblings sample_variants !! str_lower (py "bill") = Some s ∧
       str_lower (py "Billy") ∈ s.
Proof.
  apply (aliases_become_siblings sample_variants (py "bill") (py "Billy")
           [py "WILL"; py "Billy"]).
  - vm_compute. reflexivity.
  - right. left.
  - vm_compute. discriminate.
Defined.

(** ** The enricher *)

Lemma lstrip_suffix (sp : N → bool) (s : pystr) :
  ∃ pre, s = pre ++ lstrip sp s.
Proof.
  induction s as [|c s [pre IH]]; simpl; [by exists [] |].
  destruct (sp c); [| by exists []]. exists (c :: pre). simpl. by f_equal.
Qed.

Lemma lstrip_fixed (sp : N → bool) (s : pystr) :
  lstrip sp (lstrip sp s) = lstrip sp s.
Proof.
  induction s as [|c s IH]; simpl; [done |].
  destruct (sp c) eqn:Hc; [done |]. simpl. by rewrite Hc.
Qed.

Lemma lstrip_prefix_fixed (sp : N → bool) (p q : pystr) :
  lstrip sp (p ++ q) = p ++ q → lstrip sp p = p.
Proof.
  destruct p as [|c p]; simpl; [done |].
  destruct (sp c); [| done].
  intros Heq. pose proof (lstrip_suffix sp (p ++ q)) as [pre Hpre].
  rewrite Heq in Hpre. apply (f_equal length) in Hpre.
  rewrite !length_app in Hpre. simpl in Hpre.
  rewrite ?length_app in Hpre. lia.
Qed.

Lemma strip_fixed (sp : N → bool) (s : pystr) :
  strip sp (strip sp s) = strip sp s.
Proof.
  unfold strip.
  set (t := lstrip sp s). set (r := lstrip sp (rev t)).
  assert (lstrip sp (rev r) = rev r) as Hr.
  { destruct (lstrip_suffix sp (rev t)) as [pre Hpre]. fold r in Hpre.
    apply (f_equal (@rev N)) in Hpre. rewrite rev_involutive, rev_app_distr in Hpre.
    apply (lstrip_prefix_fixed sp (rev r) (rev pre)).
    rewrite <- Hpre. apply lstrip_fixed. }
  rewrite Hr, rev_involutive. unfold r. by rewrite lstrip_fixed.
Qed.

Lemma strip_nil (sp : N → bool) : strip sp [] = [].
Proof. done. Qed.

(** At most eight synonyms are kept for one word. *)
Lemma lemma_loop_spec (lemmas : list pystr) (syns : gset pystr) :
  (size syns < MAX_SYNONYMS_PER_WORD)%nat →
  (size (lemma_loop syns lemmas) ≤ MAX_SYNONYMS_PER_WORD)%nat ∧
  ∀ s, s ∈ lemma_loop syns lemmas →
    s ∈ syns ∨
    ∃ l, l ∈ lemmas ∧ s = replace_char 95 32 l ∧ s ≠ [] ∧
         str_isascii s = true.
Proof.
  revert syns. induction lemmas as [|l rest IH]; intros syns Hsize;
    cbn [lemma_loop].
  - split; [lia | auto].
  - set (cand := replace_char 95 32 l).
    set (syns' := if nonempty cand && str_isascii cand
                  then {[cand]} ∪ syns else syns).
    assert (size syns' ≤ S (size syns))%nat as Hle.
    { unfold syns'. destruct (_ && _); [apply size_add_le | lia]. }
    assert (∀ s, s ∈ syns' →
              s ∈ syns ∨ (s = cand ∧ s ≠ [] ∧ str_isascii s = true)) as Hin.
    { intros s. unfold syns'.
      destruct (nonempty cand && str_isascii cand) eqn:Hc; [| auto].
      apply andb_true_iff in Hc as [Hc1 Hc2].
      rewrite elem_of_union, elem_of_singleton. intros [-> | ?]; [| auto].
      right. split_and!; [done | by destruct cand | done]. }
    destruct (Nat.leb_spec MAX_SYNONYMS_PER_WORD (size syns')) as [Hfull | Hmore].
    + unfold MAX_SYNONYMS_PER_WORD in *. split; [lia |].
      intros s [? | (-> & ? & ?)]%Hin; [by left |].
      right. exists l. split_and!; [left | done..].
    + destruct (IH syns' Hmore) as [IH1 IH2]. split; [done |].
      intros s [[? | (-> & ? & ?)]%Hin | (l' & Hl' & Hs)]%IH2.
      * by left.
      * right. exists l. split_and!; [left | done..].
      * right. exists l'. split; [by right | done].
Qed.

Lemma synset_loop_spec (synsets : list (list pystr)) (syns : gset pystr) :
  (size syns < MAX_SYNONYMS_PER_WORD)%nat →
  (size (synset_loop syns synsets) ≤ MAX_SYNONYMS_PER_WORD)%nat ∧
  ∀ s, s ∈ synset_loop syns synsets →
    s ∈ syns ∨
    ∃ lemmas l, lemmas ∈ synsets ∧ l ∈ lemmas ∧
                s = replace_char 95 32 l ∧ s ≠ [] ∧ str_isascii s = true.
Proof.
  revert syns. induction synsets as [|lemmas rest IH]; intros syns Hsize;
    cbn [synset_loop].
  - split; [lia | auto].
  - destruct (lemma_loop_spec lemmas syns Hsize) as [H1 H2].
    destruct (Nat.leb_spec MAX_SYNONYMS_PER_WORD
                (size (lemma_loop syns lemmas))) as [Hfull | Hmore].
    + split; [done |]. intros s [? | (l & Hl & Hs)]%H2; [by left |].
      right. exists lemmas, l. split; [left | done].
    + destruct (IH _ Hmore) as [IH1 IH2]. split; [done |].
      intros s [[? | (l & Hl & Hs)]%H2 | (ls & l & Hls & Hl)]%IH2.
      * by left.
      * right. exists lemmas, l. split; [left | done].
      * right. exists ls, l. split; [by right | done].
Qed.

(** X28. The synonym loop of [_enrich_words] keeps at most eight
    synonyms for a word; each is a lemma name with its underscores turned
    into spaces, not empty and ASCII. *)
Theorem synonyms_capped (synsets : list (list pystr)) :
  (size (synset_loop ∅ synsets) ≤ 8)%nat ∧
  ∀ s, s ∈ synset_loop ∅ synsets →
    ∃ lemmas l, lemmas ∈ synsets ∧ l ∈ lemmas ∧
                s = replace_char 95 32 l ∧ s ≠ [] ∧ str_isascii s = true.
Proof.
  destruct (synset_loop_spec synsets ∅) as [H1 H2].
  { rewrite size_empty. unfold MAX_SYNONYMS_PER_WORD. lia. }
  split; [done |]. intros s [?%not_elem_of_empty | ?]%H2; done.
Qed.

Section Enricher.
Context {U : PyUnicode} {L : Lexicon}.

Lemma add_all_grows {A} (f : A → pystr) (l : list A) (pool : gset pystr)
    (x : pystr) :
  x ∈ pool → x ∈ foldl (fun pool a => {[f a]} ∪ pool) pool l.
Proof.
  revert pool. induction l as [|a l IH]; intros pool Hx; simpl; [done |].
  apply IH, elem_of_union. auto.
Qed.

Lemma enrich_word_grows (sib : gmap pystr (gset pystr)) (pool : gset pystr)
    (w x : pystr) :
  x ∈ pool ∨ (x = w ∧ w ≠ []) → x ∈ enrich_word sib pool w.
Proof.
  intros Hx. unfold enrich_word.
  destruct (nonempty w) eqn:Hw.
  2:{ destruct Hx as [? | [-> ?]]; [done | by destruct w]. }
  cbv zeta. apply elem_of_union_r.
  assert (x ∈ ({[w]} ∪ pool : gset pystr)) as H0.
  { rewrite elem_of_union, elem_of_singleton. destruct Hx as [? | [? _]]; auto. }
  revert H0. generalize ({[w]} ∪ pool : gset pystr). intros p0 H0.
  assert (x ∈ (if nonempty (unidecode w)
                    && negb (bool_decide (unidecode w = w))
               then {[unidecode w]} ∪ p0 else p0)) as H1.
  { destruct (_ && _); [apply elem_of_union; auto | done]. }
  revert H1. generalize (if nonempty (unidecode w)
                              && negb (bool_decide (unidecode w = w))
                         then {[unidecode w]} ∪ p0 else p0). intros p1 H1.
  generalize (List.filter nonempty (every_other (split_runs re_token_sep w))).
  intros tokens. revert p1 H1.
  induction tokens as [|t tokens IH]; intros p1 H1; simpl; [done |].
  apply IH. by apply (add_all_grows (fun s => _reapply_case s t)).
Qed.

Lemma enrich_pool_grows (sib : gmap pystr (gset pystr)) (ws : list pystr)
    (pool : gset pystr) (x : pystr) :
  x ∈ pool ∨ (x ∈ ws ∧ x ≠ []) →
  x ∈ foldl (enrich_word sib) pool ws.
Proof.
  revert pool. induction ws as [|w ws IH]; intros pool Hx; simpl.
  - destruct Hx as [? | [?%elem_of_nil _]]; done.
  - apply IH. destruct Hx as [Hx | [[-> | Hx]%elem_of_cons Hne]].
    + left. apply enrich_word_grows. auto.
    + left. apply enrich_word_grows. auto.
    + right. done.
Qed.

Lemma enrich_words_elem (e : Engine) (ws : list pystr) (x : pystr) :
  x ∈ _enrich_words e ws ↔
  ∃ y, y ∈ foldl (enrich_word (variant_siblings e)) ∅ ws ∧
       x = strip uni_isspace y ∧ x ≠ [].
Proof.
  unfold _enrich_words. cbv zeta.
  rewrite elem_of_elements, elem_of_list_to_set, list_elem_of_In, in_map_iff.
  split.
  - intros (y & <- & Hy%filter_In). destruct Hy as [Hy Hne].
    exists y. apply list_elem_of_In, elem_of_elements in Hy.
    apply andb_true_iff in Hne as [_ Hne].
    split_and!; [done.. |]. by destruct (strip uni_isspace y).
  - intros (y & Hy & -> & Hne). exists y. split; [done |].
    apply filter_In. split; [by apply list_elem_of_In, elem_of_elements |].
    apply andb_true_iff. split.
    + destruct y; [by rewrite strip_nil in Hne | done].
    + by destruct (strip uni_isspace y).
Qed.

(** X26. The list of [_enrich_words] holds no string twice, no empty
    string and no string with white space at either end, and it holds
    every input word, stripped, that is not blank. *)
Theorem enrich_words_clean (e : Engine) (ws : list pystr) :
  NoDup (_enrich_words e ws) ∧
  (∀ x, x ∈ _enrich_words e ws → x ≠ [] ∧ strip uni_isspace x = x) ∧
  (∀ w, w ∈ ws → strip uni_isspace w ≠ [] →
        strip uni_isspace w ∈ _enrich_words e ws).
Proof.
  split_and!.
  - apply NoDup_elements.
  - intros x (y & _ & -> & Hne)%enrich_words_elem.
    split; [done | apply strip_fixed].
  - intros w Hw Hne. apply enrich_words_elem. exists w.
    split_and!; [| done..].
    apply enrich_pool_grows. right. split; [done |].
    intros ->. by rewrite strip_nil in Hne.
Qed.

Lemma enrich_word_plain (pool : gset pystr) (w : pystr) :
  (∀ w, unidecode w = w) → wn_available = false →
  enrich_word ∅ pool w = if nonempty w then {[w]} ∪ pool else pool.
Proof.
  intros Hu Hwn. unfold enrich_word, wordnet_variants.
  destruct (nonempty w); [| done]. cbv zeta. rewrite Hwn, Hu.
  rewrite bool_decide_eq_true_2 by done. rewrite andb_false_r.
  rewrite (left_id_L ∅ (∪)).
  generalize (List.filter nonempty (every_other (split_runs re_token_sep w))).
  intros tokens. generalize ({[w]} ∪ pool : gset pystr). intros p.
  induction tokens as [|t tokens IH]; simpl; [done |].
  rewrite lookup_empty. simpl. by rewrite elements_empty.
Qed.

Lemma enrich_pool_plain (ws : list pystr) (pool : gset pystr) (x : pystr) :
  (∀ w, unidecode w = w) → wn_available = false →
  x ∈ foldl (enrich_word ∅) pool ws ↔ x ∈ pool ∨ (x ∈ ws ∧ x ≠ []).
Proof.
  intros Hu Hwn. revert pool.
  induction ws as [|w ws IH]; intros pool; simpl.
  - split; [auto | intros [? | [?%elem_of_nil _]]; done].
  - rewrite IH, enrich_word_plain by done. rewrite elem_of_cons.
    destruct w as [|c w]; simpl.
    + intuition congruence.
    + rewrite elem_of_union, elem_of_singleton.
      assert (x = c :: w → x ≠ []) by (by intros ->).
      intuition.
Qed.

(** X27. Without collaborators (the fallback [unidecode], no WordNet)
    and without a variants table, [_enrich_words] only cleans: its output
    holds exactly the input words, stripped, that are not blank. *)
Theorem enrich_words_without_collaborators (e : Engine) (ws : list pystr)
    (x : pystr) :
  (∀ w, unidecode w = w) →
  wn_available = false →
  variant_siblings e = ∅ →
  x ∈ _enrich_words e ws ↔
  ∃ w, w ∈ ws ∧ x = strip uni_isspace w ∧ x ≠ [].
Proof.
  intros Hu Hwn Hsib. rewrite enrich_words_elem, Hsib. split.
  - intros (y & Hy & -> & Hne). exists y. split; [| done].
    apply enrich_pool_plain in Hy as [?%not_elem_of_empty | [? _]]; done.
  - intros (w & Hw & -> & Hne). exists w. split; [| done].
    apply enrich_pool_plain; [done.. |]. right. split; [done |].
    intros ->. by rewrite strip_nil in Hne.
Qed.

End Enricher.

Lemma enrich_words_without_collaborators_witness :
  py "Bob" ∈ _enrich_words (engine_of [] [] sample_word_options)
                            [py " Bob "; py "   "; py "Bob"] ↔
  ∃ w, w ∈ [py " Bob "; py "   "; py "Bob"] ∧
       py "Bob" = strip uni_isspace w ∧ py "Bob" ≠ [].
Proof.
  apply (enrich_words_without_collaborators
           (engine_of [] [] sample_word_options)
           [py " Bob "; py "   "; py "Bob"] (py "Bob"));
    reflexivity.
Defined.

(** ** Banking mode, the whole set *)

Lemma product_complete (alphabet : pystr) (s : pystr) :
  (∀ c, c ∈ s → c ∈ alphabet) → s ∈ product alphabet (length s).
Proof.
  induction s as [|c s IH]; intros Hall; simpl; [left |].
  apply list_elem_of_In, in_flat_map. exists c.
  split; [apply list_elem_of_In, Hall; left |].
  apply in_map, list_elem_of_In, IH. intros c' Hc'. apply Hall. by right.
Qed.

(** X29. In banking mode with a digit in the input, [generate] returns
    exactly the strings of [exact_digits] characters all of whose
    characters are digits of the input. *)
Theorem numeric_generation_exhaustive `{U : PyUnicode} `{L : Lexicon}
    (e : Engine) :
  validate (o e) = Ok tt →
  numeric_only (o e) = true →
  (0 < size (digit_set (numeric_source e)))%nat →
  ∃ out, run generate e = Ok out ∧
    ∀ s, s ∈ out ↔
      Z.of_nat (length s) = exact_digits (o e) ∧
      ∀ c, c ∈ s → c ∈ numeric_source e ∧ uni_isdecimal c = true.
Proof.
  intros Hv Hnum Hd. pose proof (valid_exact_digits _ Hv Hnum) as Hlen.
  rewrite generate_numeric_ok by (done || lia).
  eexists; split; [reflexivity |]. intros s. split.
  - intros [Hl Hall]%product_elem. split; [lia |].
    intros c Hc. by apply digit_set_elem, digit_alphabet_elem, Hall.
  - intros [Hl Hall].
    replace (Z.to_nat (exact_digits (o e))) with (length s) by lia.
    apply product_complete. intros c Hc.
    by apply digit_alphabet_elem, digit_set_elem, Hall.
Qed.

Lemma numeric_generation_exhaustive_witness :
  ∃ out, run generate (engine_of [py "ab12"] [] sample_bank_options) = Ok out ∧
    ∀ s, s ∈ out ↔
      Z.of_nat (length s) = 2%Z ∧
      ∀ c, c ∈ s →
        c ∈ numeric_source (engine_of [py "ab12"] [] sample_bank_options) ∧
        uni_isdecimal c = true.
Proof.
  apply (numeric_generation_exhaustive
           (engine_of [py "ab12"] [] sample_bank_options));
    (reflexivity || (vm_compute; lia)).
Defined.

(** ** Sample runs *)

Lemma generate_without_input_witness :
  (numeric_only (o (engine_of [] [] sample_word_options)) = false →
   run generate (engine_of [] [] sample_word_options) = Ok []) ∧
  (numeric_only (o (engine_of [] [] sample_word_options)) = true →
   run generate (engine_of [] [] sample_word_options)
   = Raise no_digits_error).
Proof.
  apply (generate_without_input (engine_of [] [] sample_word_options));
    reflexivity.
Defined.

Lemma generate_contains_basewords_witness :
  ∃ out, run generate (engine_of [py "abc"; py "x"] [] sample_word_options)
         = Ok out ∧ py "abc" ∈ out.
Proof.
  apply (generate_contains_basewords
           (engine_of [py "abc"; py "x"] [] sample_word_options) (py "abc")).
  - reflexivity.
  - right. discriminate.
  - apply (bool_decide_eq_true_1 (_ ∈ _)). vm_compute. reflexivity.
  - vm_compute. split; discriminate.
Defined.

Lemma john_rules_respell_hashcat_witness :
  py "A!" ∈ _build_john_rules None ↔
  ∃ x, x ∈ _build_hashcat_rules None ∧ py "A!" = john_spelling x.
Proof.
  apply (john_rules_respell_hashcat None (py "A!")). reflexivity.
Defined.
